(** * Speech-to-text streaming client: session adapter and event aggregator

    A shallow embedding of [speech-to-text/recognize-stream.js] (module
    [RecognizeStream]) and [speech-to-text/result-stream.js] (module
    [ResultStream]).

    Both objects are single-threaded, callback-driven JavaScript.  A handler
    is embedded as a computation in a small state/log/exception monad: it
    reads and updates the object's fields, appends to a chronological log the
    calls it makes on its collaborators (the transport socket, the stream
    base class, the event emitter), and either returns or aborts with an
    uncaught exception. *)

From Stdlib Require Import List String Bool Arith Lia.
From Stdlib.Strings Require Import Byte.
Import ListNotations.
Open Scope string_scope.
Open Scope list_scope.

Set Implicit Arguments.

(** ** The handler monad, shared by both objects *)

Module Handler.

Inductive exn : Type :=
| TypeError (what : string).

Inductive outcome (A : Type) : Type :=
| Returned (a : A)
| Thrown (e : exn).
Arguments Thrown {A} e.

(** What running a handler yields: the state it leaves, the log of what it
    did, and how it ended. *)
Record reply (St Eff A : Type) : Type := Reply {
  state_of : St;
  log_of : list Eff;
  outcome_of : outcome A
}.

Section Monad.
Variables St Eff : Type.

Definition M (A : Type) : Type := St -> reply St Eff A.

Definition ret {A} (a : A) : M A := fun s => Reply s [] (Returned a).

Definition bind {A B} (m : M A) (f : A -> M B) : M B :=
  fun s =>
    let r1 := m s in
    match outcome_of r1 with
    | Returned a =>
        let r2 := f a (state_of r1) in
        Reply (state_of r2) (log_of r1 ++ log_of r2) (outcome_of r2)
    | Thrown e => Reply (state_of r1) (log_of r1) (Thrown e)
    end.

Definition get : M St := fun s => Reply s [] (Returned s).
Definition modify (f : St -> St) : M unit := fun s => Reply (f s) [] (Returned tt).
Definition log (e : Eff) : M unit := fun s => Reply s [e] (Returned tt).
Definition throw {A} (e : exn) : M A := fun s => Reply s [] (Thrown e).

(** [Array.prototype.forEach], and the calls of the listeners of an event:
    the callback runs on each element in order; an exception in the
    callback ends the iteration. *)
Fixpoint forEach {A} (f : A -> M unit) (l : list A) : M unit :=
  match l with
  | [] => ret tt
  | x :: l' => bind (f x) (fun _ => forEach f l')
  end.

(** A handler respects a relation between the state before, the log and
    the state after; a relation that holds of doing nothing and composes
    along the log is respected by a handler as soon as its parts respect
    it, whether or not an exception cuts it short. *)
Definition sat (R : St -> list Eff -> St -> Prop) {A} (h : M A) : Prop :=
  forall s, R s (log_of (h s)) (state_of (h s)).

Record stepwise (R : St -> list Eff -> St -> Prop) : Prop := {
  stepwise_refl : forall s, R s [] s;
  stepwise_trans : forall s l1 s1 l2 s2,
    R s l1 s1 -> R s1 l2 s2 -> R s (l1 ++ l2) s2
}.
End Monad.

Arguments ret {St Eff A} a.
Arguments get {St Eff}.
Arguments modify {St Eff} f.
Arguments log {St Eff} e.
Arguments throw {St Eff A} e.

Declare Scope handler_scope.
Delimit Scope handler_scope with handler.
Notation "x <- m ;; k" := (bind m (fun x => k))
  (at level 61, m at next level, right associativity) : handler_scope.
Notation "m ;; k" := (bind m (fun _ => k))
  (at level 61, right associativity) : handler_scope.

End Handler.

Import Handler.
Open Scope handler_scope.

(** Number of entries of a log that satisfy a boolean test. *)
Definition count {A} (p : A -> bool) (l : list A) : nat :=
  List.length (List.filter p l).

(** JavaScript truthiness of a possibly absent string field. *)
Definition truthy (o : option string) : bool :=
  match o with
  | Some s => negb (String.eqb s EmptyString)
  | None => false
  end.

(** ** The session adapter, [recognize-stream.js] *)

Module RecognizeStream.

(** *** Protocol data *)

(** A chunk of binary audio (a [Buffer]). *)
Definition chunk : Type := list byte.

Record alternative : Type := { transcript : string }.

(** [alternatives = None] is a missing (falsy) field; an array, even an
    empty one, is truthy. *)
Record result : Type := {
  final : bool;
  alternatives : option (list alternative)
}.

(** The value [JSON.parse] returns, as far as [onmessage] looks into it:
    [JNull] is JSON [null], on which a property read throws; every other
    value is seen through its three fields. *)
Record payload : Type := {
  error : option string;
  state : option string;
  results : option (list result)
}.

Inductive json : Type :=
| JNull
| JObject (p : payload).

(** An inbound frame: [typeof frame.data] is ['string'] or not. *)
Inductive frame : Type :=
| TextFrame (data : string)
| BinaryFrame (data : chunk).

(** Outbound frames: [JSON.stringify(openingMessage)], the closing message
    [{action: 'stop'}], and raw audio.  Of the opening message, the protocol
    defaults overlaid with the allowed options, the record keeps the
    ['content-type'] option that overrides the default. *)
Record openingMessage : Type := { content_type : option string }.

Inductive outframe : Type :=
| Start (m : openingMessage)
| StopFrame
| Audio (c : chunk).

(** Events raised on the adapter with [self.emit]. *)
Inductive event : Type :=
| Connect
| Listening
| Message (d : json)
| Error (message : string) (raw : option frame)
| Results (rs : list result)
| Result (r : result)
| Close (code : nat) (reason : string)
| StopEvent.

(** What a handler does to its collaborators, in order: calls on the
    transport socket, events raised, chunks pushed to the readable side
    ([Push None] is [push(null)], end of output), and the flow-control step
    [afterSend], whose timer loop ends in the write callback. *)
Inductive effect : Type :=
| SockNew
| SockSend (f : outframe)
| SockClose
| Emit (e : event)
| Push (c : option string)
| AfterSend.

(** *** Session state *)

(** The fields of the stream object, and the listeners the adapter installs
    on itself: [onceListening] holds the chunks of the writes deferred with
    [once('listening', ...)], [onceConnect] counts the stop messages deferred
    with [once('connect', ...)], [onFinish] counts the handlers installed
    with [on('finish', ...)].  [socket] tells whether [this.socket] is set;
    [opening] is the [openingMessage] closed over by [onopen].  Of the
    options only ['content-type'] is kept.  The ['newListener'] listener of
    the constructor, which puts the stream in flowing mode, concerns the
    readers of the stream and is left out. *)
Record RS : Type := {
  listening : bool;
  initialized : bool;
  finished : bool;
  socket : bool;
  option_content_type : option string;
  opening : openingMessage;
  onceListening : list chunk;
  onceConnect : nat;
  onFinish : nat
}.

(** [new RecognizeStream(options)] *)
Definition create (ct : option string) : RS :=
  {| listening := false; initialized := false; finished := false;
     socket := false; option_content_type := ct;
     opening := {| content_type := None |};
     onceListening := []; onceConnect := 0; onFinish := 0 |}.

Definition set_listening (b : bool) (s : RS) : RS :=
  {| listening := b; initialized := initialized s; finished := finished s;
     socket := socket s; option_content_type := option_content_type s;
     opening := opening s; onceListening := onceListening s;
     onceConnect := onceConnect s; onFinish := onFinish s |}.

Definition set_initialized (b : bool) (s : RS) : RS :=
  {| listening := listening s; initialized := b; finished := finished s;
     socket := socket s; option_content_type := option_content_type s;
     opening := opening s; onceListening := onceListening s;
     onceConnect := onceConnect s; onFinish := onFinish s |}.

Definition set_finished (b : bool) (s : RS) : RS :=
  {| listening := listening s; initialized := initialized s; finished := b;
     socket := socket s; option_content_type := option_content_type s;
     opening := opening s; onceListening := onceListening s;
     onceConnect := onceConnect s; onFinish := onFinish s |}.

Definition set_socket (b : bool) (s : RS) : RS :=
  {| listening := listening s; initialized := initialized s;
     finished := finished s; socket := b;
     option_content_type := option_content_type s;
     opening := opening s; onceListening := onceListening s;
     onceConnect := onceConnect s; onFinish := onFinish s |}.

Definition set_option_content_type (ct : option string) (s : RS) : RS :=
  {| listening := listening s; initialized := initialized s;
     finished := finished s; socket := socket s; option_content_type := ct;
     opening := opening s; onceListening := onceListening s;
     onceConnect := onceConnect s; onFinish := onFinish s |}.

Definition set_opening (m : openingMessage) (s : RS) : RS :=
  {| listening := listening s; initialized := initialized s;
     finished := finished s; socket := socket s;
     option_content_type := option_content_type s;
     opening := m; onceListening := onceListening s;
     onceConnect := onceConnect s; onFinish := onFinish s |}.

Definition set_onceListening (l : list chunk) (s : RS) : RS :=
  {| listening := listening s; initialized := initialized s;
     finished := finished s; socket := socket s;
     option_content_type := option_content_type s;
     opening := opening s; onceListening := l;
     onceConnect := onceConnect s; onFinish := onFinish s |}.

Definition set_onceConnect (n : nat) (s : RS) : RS :=
  {| listening := listening s; initialized := initialized s;
     finished := finished s; socket := socket s;
     option_content_type := option_content_type s;
     opening := opening s; onceListening := onceListening s;
     onceConnect := n; onFinish := onFinish s |}.

Definition set_onFinish (n : nat) (s : RS) : RS :=
  {| listening := listening s; initialized := initialized s;
     finished := finished s; socket := socket s;
     option_content_type := option_content_type s;
     opening := opening s; onceListening := onceListening s;
     onceConnect := onceConnect s; onFinish := n |}.

Definition H (A : Type) : Type := M RS effect A.

(** *** Calls on the transport

    [this.socket] is undefined until [initialize] has run; a method call on
    it then throws. *)
Definition socket_send (f : outframe) : H unit :=
  s <- get ;;
  if socket s then log (SockSend f)
  else throw (TypeError "Cannot read property 'send' of undefined").

Definition socket_close : H unit :=
  s <- get ;;
  if socket s then log SockClose
  else throw (TypeError "Cannot read property 'close' of undefined").

(** [afterSend(next)]: the buffered amount of the transport is polled until
    it is at most the high-water mark, then [next] is called. *)
Definition afterSend : H unit := log AfterSend.

(** *** Raising events

    [emit] calls the listeners of the event in order.  The listeners the
    adapter installed on itself are run here; a [once] listener is removed
    before it is called.  The listeners of the user are not part of the
    adapter: to them an event is an entry of the log. *)
Definition fire_onceListening (c : chunk) : H unit :=
  modify (fun s => set_onceListening (tl (onceListening s)) s) ;;
  socket_send (Audio c) ;;
  afterSend.

Definition fire_onceConnect (_ : unit) : H unit :=
  modify (fun s => set_onceConnect (pred (onceConnect s)) s) ;;
  socket_send StopFrame.

Definition emit (e : event) : H unit :=
  log (Emit e) ;;
  match e with
  | Listening => s <- get ;; forEach fire_onceListening (onceListening s)
  | Connect => s <- get ;; forEach fire_onceConnect (repeat tt (onceConnect s))
  | _ => ret tt
  end.

(** [emitError(msg, frame, err)]: with [err], the message is prefixed to the
    one of [err]; the raw frame is attached. *)
Definition emitError (msg : string) (fr : frame) (err : option string) : H unit :=
  match err with
  | Some m => emit (Error (msg ++ " " ++ m)%string (Some fr))
  | None => emit (Error msg (Some fr))
  end.

(** *** [RecognizeStream.prototype.finish] *)
Definition finish : H unit :=
  s <- get ;;
  if finished s then ret tt
  else
    modify (set_finished true) ;;
    s <- get ;;
    if socket s then socket_send StopFrame
    else modify (fun s => set_onceConnect (S (onceConnect s)) s).

(** *** [RecognizeStream.prototype.stop] *)
Definition stop (hard : bool) : H unit :=
  emit StopEvent ;;
  if hard then socket_close else finish.

(** *** The socket callbacks installed by [initialize] *)

Definition onerror (err : string) : H unit :=
  modify (set_listening false) ;;
  emit (Error err None).

Definition onopen : H unit :=
  s <- get ;;
  socket_send (Start (opening s)) ;;
  emit Connect.

Definition onclose (code : nat) (reason : string) : H unit :=
  s <- get ;;
  (if listening s
   then modify (set_listening false) ;; log (Push None)
   else ret tt) ;;
  emit (Close code reason).

(** The callback of [data.results.forEach]. *)
Definition each_result (r : result) : H unit :=
  emit (Result r) ;;
  if final r then
    match alternatives r with
    | Some (a :: _) => log (Push (Some (transcript a)))
    | Some [] => throw (TypeError "Cannot read property 'transcript' of undefined")
    | None => ret tt
    end
  else ret tt.

Section Parse.
(** [JSON.parse]: the decoded value, or the message of the exception. *)
Variable JSON_parse : string -> string + json.
(** [RecognizeStream.getContentType], from the first bytes of a chunk. *)
Variable getContentType : chunk -> option string.
(** [options.content_type], the content type under its old name: the
    adapter reads it and never writes it. *)
Variable old_content_type : option string.

Definition onmessage (fr : frame) : H unit :=
  match fr with
  | BinaryFrame _ =>
      emitError "Unexpected binary data received from server" fr None
  | TextFrame raw =>
      match JSON_parse raw with
      | inl jsonEx =>
          emitError "Invalid JSON received from service:" fr (Some jsonEx)
      | inr data =>
          emit (Message data) ;;
          match data with
          | JNull => throw (TypeError "Cannot read property 'error' of null")
          | JObject d =>
              if truthy (error d) then
                emitError (match error d with Some m => m | None => EmptyString end) fr None
              else if match state d with
                      | Some st => String.eqb st "listening"
                      | None => false
                      end then
                s <- get ;;
                if negb (listening s) then
                  modify (set_listening true) ;;
                  emit Listening
                else
                  modify (set_listening false) ;;
                  log (Push None) ;;
                  socket_close
              else
                match results d with
                | Some rs =>
                    emit (Results rs) ;;
                    forEach each_result rs
                | None =>
                    emitError "Unrecognised message from server" fr None
                end
          end
      end
  end.

(** *** [RecognizeStream.prototype.initialize]

    The content type given under its old name stands in for a missing or
    falsy ['content-type']; the opening message overlays the protocol
    defaults with the options picked from the allowed list; the socket is
    created, the handler of ['finish'] and the socket callbacks are
    installed.  The corrections of the token and of the opt-out header and
    the URL with its query string concern the request that opens the
    socket and are left out here (module [Connection] has them): the
    sessions are those of the configurations on which [initialize] returns,
    with a [url] that is a string or missing. *)
Definition initialize : H unit :=
  s <- get ;;
  (if truthy old_content_type && negb (truthy (option_content_type s))
   then modify (set_option_content_type old_content_type)
   else ret tt) ;;
  s <- get ;;
  modify (set_opening {| content_type := option_content_type s |}) ;;
  log SockNew ;;
  modify (set_socket true) ;;
  modify (fun s => set_onFinish (S (onFinish s)) s) ;;
  modify (set_initialized true).

(** *** [RecognizeStream.prototype._write] *)
Definition _write (c : chunk) : H unit :=
  s <- get ;;
  if listening s then
    socket_send (Audio c) ;;
    afterSend
  else
    (if negb (initialized s) then
       (if negb (truthy (option_content_type s))
        then modify (set_option_content_type (getContentType c))
        else ret tt) ;;
       initialize
     else ret tt) ;;
    modify (fun s => set_onceListening (onceListening s ++ [c]) s).

(** *** What happens to the adapter

    Calls of the user and of the stream base class ([Write] is [_write],
    [EndOfInput] the ['finish'] event of the writable side), and callbacks
    of the transport. *)
Inductive input : Type :=
| Write (c : chunk)
| EndOfInput
| StopCall (hard : bool)
| FinishCall
| OnOpen
| OnError (err : string)
| OnClose (code : nat) (reason : string)
| OnMessage (fr : frame).

(** The transport callbacks exist once [initialize] has created the
    socket; before that no callback can be delivered. *)
Definition callback (h : H unit) : H unit :=
  s <- get ;;
  if socket s then h else ret tt.

Definition handle (i : input) : H unit :=
  match i with
  | Write c => _write c
  | EndOfInput =>
      s <- get ;; forEach (fun _ : unit => finish) (repeat tt (onFinish s))
  | StopCall hard => stop hard
  | FinishCall => finish
  | OnOpen => callback onopen
  | OnError err => callback (onerror err)
  | OnClose code reason => callback (onclose code reason)
  | OnMessage fr => callback (onmessage fr)
  end.

(** A session: the inputs are handled one after the other; an exception
    ends the handler that raised it, not the session. *)
Fixpoint run (s : RS) (ins : list input) : RS * list effect :=
  match ins with
  | [] => (s, [])
  | i :: ins' =>
      let r := handle i s in
      let r' := run (state_of r) ins' in
      (fst r', log_of r ++ snd r')
  end.

Definition final_state (ct : option string) (ins : list input) : RS :=
  fst (run (create ct) ins).

Definition trace (ct : option string) (ins : list input) : list effect :=
  snd (run (create ct) ins).
End Parse.

End RecognizeStream.

(** ** The event aggregator, [result-stream.js] *)

Module ResultStream.

(** A source stream, by identity: registering the same object twice gives
    the same [source] twice. *)
Definition source : Type := nat.

(** The aggregator raises events on itself with [this.emit(eventName, ...)]. *)
Inductive effect : Type :=
| Emit (eventName : string).

(** The three arrays of the aggregator, and the listeners it has installed
    on its sources: an entry [(src, eventName)] of [wires] is one call
    [src.on(eventName, this.emit.bind(this, eventName))], in the order of
    the calls. *)
Record RSt : Type := {
  errorSources : list source;
  allEventSources : list source;
  propagatedEvents : list string;
  wires : list (source * string)
}.

(** [new ResultStream(options)] *)
Definition create : RSt :=
  {| errorSources := []; allEventSources := []; propagatedEvents := [];
     wires := [] |}.

Definition H (A : Type) : Type := M RSt effect A.

(** [Array.prototype.indexOf]; [None] is [-1]. *)
Fixpoint indexOf (x : string) (l : list string) : option nat :=
  match l with
  | [] => None
  | y :: l' =>
      if String.eqb y x then Some 0
      else match indexOf x l' with
           | Some i => Some (S i)
           | None => None
           end
  end.

Definition push_errorSources (src : source) (s : RSt) : RSt :=
  {| errorSources := errorSources s ++ [src];
     allEventSources := allEventSources s;
     propagatedEvents := propagatedEvents s; wires := wires s |}.

Definition push_allEventSources (src : source) (s : RSt) : RSt :=
  {| errorSources := errorSources s;
     allEventSources := allEventSources s ++ [src];
     propagatedEvents := propagatedEvents s; wires := wires s |}.

Definition push_propagatedEvents (eventName : string) (s : RSt) : RSt :=
  {| errorSources := errorSources s;
     allEventSources := allEventSources s;
     propagatedEvents := propagatedEvents s ++ [eventName];
     wires := wires s |}.

(** [src.on(eventName, this.emit.bind(this, eventName))] *)
Definition source_on (src : source) (eventName : string) : H unit :=
  modify (fun s =>
    {| errorSources := errorSources s;
       allEventSources := allEventSources s;
       propagatedEvents := propagatedEvents s;
       wires := wires s ++ [(src, eventName)] |}).

(** *** [ResultStream.prototype.propagateErrorsFrom] *)
Definition propagateErrorsFrom (sourceStream : source) : H unit :=
  modify (push_errorSources sourceStream) ;;
  s <- get ;;
  match indexOf "error" (propagatedEvents s) with
  | Some _ => source_on sourceStream "error"
  | None => ret tt
  end.

(** *** [ResultStream.prototype.propagateEventsFrom] *)
Definition propagateEventsFrom (sourceStream : source) : H unit :=
  modify (push_allEventSources sourceStream) ;;
  s <- get ;;
  forEach (fun eventName => source_on sourceStream eventName)
          (propagatedEvents s).

(** *** [ResultStream.prototype.propagateEvent]

    Lines 68 and 71 of the source both push [eventName]. *)
Definition propagateEvent (eventName : string) : H unit :=
  if String.eqb eventName "data" || String.eqb eventName "end" then ret tt
  else
    s <- get ;;
    match indexOf eventName (propagatedEvents s) with
    | None =>
        modify (push_propagatedEvents eventName) ;;
        s <- get ;;
        let sources :=
          if String.eqb eventName "error"
          then errorSources s ++ allEventSources s
          else allEventSources s in
        modify (push_propagatedEvents eventName) ;;
        forEach (fun src => source_on src eventName) sources
    | Some _ => ret tt
    end.

(** A source raises an event: each listener the aggregator installed on it
    for that event raises the event on the aggregator. *)
Definition wired (src : source) (eventName : string) (w : source * string) : bool :=
  Nat.eqb (fst w) src && String.eqb (snd w) eventName.

Definition source_emit (src : source) (eventName : string) : H unit :=
  s <- get ;;
  forEach (fun _ : source * string => log (Emit eventName))
          (filter (wired src eventName) (wires s)).

(** What happens to the aggregator: a listener is attached to it ([On],
    which raises ['newListener'] and so runs [propagateEvent]), a source is
    registered, a source raises an event. *)
Inductive input : Type :=
| On (eventName : string)
| PropagateErrorsFrom (src : source)
| PropagateEventsFrom (src : source)
| Raise (src : source) (eventName : string).

Definition handle (i : input) : H unit :=
  match i with
  | On eventName => propagateEvent eventName
  | PropagateErrorsFrom src => propagateErrorsFrom src
  | PropagateEventsFrom src => propagateEventsFrom src
  | Raise src eventName => source_emit src eventName
  end.

Fixpoint run (s : RSt) (ins : list input) : RSt * list effect :=
  match ins with
  | [] => (s, [])
  | i :: ins' =>
      let r := handle i s in
      let r' := run (state_of r) ins' in
      (fst r', log_of r ++ snd r')
  end.

Definition final_state (ins : list input) : RSt := fst (run create ins).
Definition trace (ins : list input) : list effect := snd (run create ins).

Definition add_wires (ws : list (source * string)) (s : RSt) : RSt :=
  {| errorSources := errorSources s;
     allEventSources := allEventSources s;
     propagatedEvents := propagatedEvents s;
     wires := wires s ++ ws |}.

(** Every registered error source is wired for ['error'] once ['error'] is
    among the propagated events, and nothing is wired for an event that is
    not among them. *)
Definition wiring_inv (s : RSt) : Prop :=
  (forall src, In src (errorSources s) ->
               In "error" (propagatedEvents s) ->
               In (src, "error") (wires s)) /\
  (forall src eventName, In (src, eventName) (wires s) ->
                         In eventName (propagatedEvents s)).

(** The number of forwarding listeners the aggregator has on [src] for
    [eventName]. *)
Definition subscriptions (src : source) (eventName : string) (s : RSt) : nat :=
  count (wired src eventName) (wires s).

End ResultStream.

(** ** Properties of sessions, as predicates on logs and states *)

Module Session.
Import RecognizeStream.

Definition is_start (e : effect) : bool :=
  match e with SockSend (Start _) => true | _ => false end.

Definition is_stop (e : effect) : bool :=
  match e with SockSend StopFrame => true | _ => false end.

Definition is_audio (e : effect) : bool :=
  match e with SockSend (Audio _) => true | _ => false end.

Definition is_end_of_output (e : effect) : bool :=
  match e with Push None => true | _ => false end.

Definition is_listening_raised (e : effect) : bool :=
  match e with Emit Listening => true | _ => false end.

Definition is_error_raised (e : effect) : bool :=
  match e with Emit (Error _ _) => true | _ => false end.

Definition is_close (e : effect) : bool :=
  match e with SockClose => true | _ => false end.

(** In the log, no audio is sent before the first time ['listening'] is
    raised. *)
Fixpoint audio_guarded (l : list effect) : bool :=
  match l with
  | [] => true
  | Emit Listening :: _ => true
  | SockSend (Audio _) :: _ => false
  | _ :: l' => audio_guarded l'
  end.

Definition quiet_until_listening (s : RS) (l : list effect) (s' : RS) : Prop :=
  listening s = false ->
  audio_guarded l = true /\
  (existsb is_listening_raised l = false -> listening s' = false).

(** The inbound messages on which [onmessage] takes the ['listening']
    branch: a text frame that decodes to an object with no truthy [error]
    and with [state] equal to ['listening']. *)
Definition is_listening_report (JSON_parse : string -> string + json)
    (i : input) : bool :=
  match i with
  | OnMessage (TextFrame raw) =>
      match JSON_parse raw with
      | inr (JObject d) =>
          negb (truthy (error d)) &&
          match state d with
          | Some st => String.eqb st "listening"
          | None => false
          end
      | _ => false
      end
  | _ => false
  end.

(** What holds of a handler run on anything but a listening report: it
    does not raise ['listening'], and an adapter that is not listening stays
    so and sends no audio. *)
Definition hushed (s : RS) (l : list effect) (s' : RS) : Prop :=
  count is_listening_raised l = 0 /\
  (listening s = false -> listening s' = false /\ count is_audio l = 0).

(** The stop messages a state can still cause: those deferred to
    ['connect'], and one more as long as [finished] is not set. *)
Definition stop_potential (s : RS) : nat :=
  onceConnect s + (if finished s then 0 else 1).

Definition stop_budget (s : RS) (l : list effect) (s' : RS) : Prop :=
  count is_stop l + stop_potential s' <= stop_potential s.

(** Once set, [finished] stays set. *)
Definition finished_stays (s : RS) (l : list effect) (s' : RS) : Prop :=
  finished s = true -> finished s' = true.

(** Relations that most handlers respect: the connection fields, the
    listening flag, are left as they are; no opening message is sent. *)
Definition same_conn (s : RS) (l : list effect) (s' : RS) : Prop :=
  socket s' = socket s /\ initialized s' = initialized s.

Definition same_listening (s : RS) (l : list effect) (s' : RS) : Prop :=
  listening s' = listening s.

Definition no_start (s : RS) (l : list effect) (s' : RS) : Prop :=
  count is_start l = 0.

Definition is_write (i : input) : bool :=
  match i with Write _ => true | _ => false end.

Definition is_open (i : input) : bool :=
  match i with OnOpen => true | _ => false end.

(** Every opening message in the log is directly followed by ['connect']. *)
Definition start_then_connect (l : list effect) : Prop :=
  forall pre m post,
    l = pre ++ SockSend (Start m) :: post ->
    exists post', post = Emit Connect :: post'.

(** The open reports the transport delivers to the adapter: [onopen] exists
    from the first write on, which creates the socket. *)
Fixpoint opens_delivered (created : bool) (ins : list input) : nat :=
  match ins with
  | [] => 0
  | Write _ :: ins' => opens_delivered true ins'
  | OnOpen :: ins' => (if created then 1 else 0) + opens_delivered created ins'
  | _ :: ins' => opens_delivered created ins'
  end.

(** The socket exists exactly when [initialize] has run, and the adapter
    listens only on a socket. *)
Definition socket_inv (s : RS) : Prop :=
  initialized s = socket s /\ (listening s = true -> socket s = true).

Definition b2n (b : bool) : nat := if b then 1 else 0.

(** Ends of output, plus one while the adapter listens, never outnumber the
    times ['listening'] was raised. *)
Definition end_budget (s : RS) (l : list effect) (s' : RS) : Prop :=
  count is_end_of_output l + b2n (listening s') <=
  count is_listening_raised l + b2n (listening s).

(** What [each_result] does for a result on which it does not throw. *)
Definition result_log (r : result) : list effect :=
  Emit (Result r) ::
  (if final r then
     match alternatives r with
     | Some (a :: _) => [Push (Some (transcript a))]
     | _ => []
     end
   else []).

(** The read [result.alternatives[0].transcript] is within bounds. *)
Definition in_bounds (r : result) : Prop :=
  final r = true -> alternatives r <> Some [].

Definition audio_sends (cs : list chunk) : list effect :=
  flat_map (fun c => [SockSend (Audio c); AfterSend]) cs.

(** A sample decoder standing for [JSON.parse] in the examples below: it
    knows four frames by name and rejects every other text.  And a sample
    [getContentType]. *)
Definition listening_payload : payload :=
  {| error := None; state := Some "listening"; results := None |}.

Definition hello : result :=
  {| final := true; alternatives := Some [ {| transcript := "hello world" |} ] |}.

Definition interim : result :=
  {| final := false; alternatives := Some [ {| transcript := "hello wor" |} ] |}.

Definition empty_final : result :=
  {| final := true; alternatives := Some [] |}.

Definition sample_parse (raw : string) : string + json :=
  if String.eqb raw "listening" then inr (JObject listening_payload)
  else if String.eqb raw "results" then
    inr (JObject {| error := None; state := None; results := Some [interim; hello] |})
  else if String.eqb raw "empty" then
    inr (JObject {| error := None; state := None; results := Some [empty_final; interim] |})
  else if String.eqb raw "both" then
    inr (JObject {| error := Some "boom"; state := None; results := Some [hello] |})
  else inl "Unexpected token".

Definition sample_type (c : chunk) : option string := Some "audio/wav".

(** The first four bytes of a RIFF file, as a chunk. *)
Definition riff : chunk := [x52; x49; x46; x46].

Definition listening_frame : frame := TextFrame "listening".

(** Sample sessions: one that ends gracefully, the same with one and with
    two more listening reports, and one in which the server reports
    listening twice although no stop message was sent. *)
Definition graceful : list input :=
  [Write riff; OnOpen; OnMessage listening_frame; FinishCall;
   OnMessage listening_frame].

Definition graceful_again : list input :=
  graceful ++ [OnMessage listening_frame].

Definition graceful_twice : list input :=
  graceful_again ++ [OnMessage listening_frame].

Definition unasked : list input :=
  [Write riff; OnOpen; OnMessage listening_frame; OnMessage listening_frame].

Definition opened : RS :=
  final_state sample_parse sample_type None None [Write riff; OnOpen].

End Session.

(** ** Further properties of sessions *)

Module Conduct.
Import RecognizeStream Session.

(** The audio chunks a log hands to the transport, and the chunks a list of
    inputs writes, in order. *)
Definition audio_of (l : list effect) : list chunk :=
  flat_map (fun e => match e with SockSend (Audio c) => [c] | _ => [] end) l.

Definition written (ins : list input) : list chunk :=
  flat_map (fun i => match i with Write c => [c] | _ => [] end) ins.

Definition is_new (e : effect) : bool :=
  match e with SockNew => true | _ => false end.

(** A call on the transport socket, as opposed to an event or a push. *)
Definition is_transport (e : effect) : bool :=
  match e with SockNew | SockSend _ | SockClose => true | _ => false end.

(** The inputs that ask for a graceful end: the end of the input, a finish
    call, a stop call that is not hard. *)
Definition is_graceful (i : input) : bool :=
  match i with
  | EndOfInput | FinishCall | StopCall false => true
  | _ => false
  end.

(** While the adapter listens nothing is deferred. *)
Definition order_inv (s : RS) : Prop :=
  socket_inv s /\ (listening s = true -> onceListening s = []).

(** On a socket, what a handler sends and what it leaves deferred make up
    what was deferred before; it sets [listening] only with nothing left
    deferred. *)
Definition drains (s : RS) (l : list effect) (s' : RS) : Prop :=
  socket s = true ->
  socket s' = true /\
  initialized s' = initialized s /\
  audio_of l ++ onceListening s' = onceListening s /\
  (listening s' = true -> listening s = true \/ onceListening s' = []).

(** A handler that neither sends audio nor touches what is deferred. *)
Definition same_queue (s : RS) (l : list effect) (s' : RS) : Prop :=
  audio_of l = [] /\ onceListening s' = onceListening s.

(** The stop messages sent and those a state can still cause add up. *)
Definition stop_exact (s : RS) (l : list effect) (s' : RS) : Prop :=
  count is_stop l + stop_potential s' = stop_potential s.

Definition same_finished (s : RS) (l : list effect) (s' : RS) : Prop :=
  finished s' = finished s.

(** Without a socket nothing reaches the transport. *)
Definition offline (s : RS) (l : list effect) (s' : RS) : Prop :=
  socket s = false -> socket s' = false /\ count is_transport l = 0.

Definition no_new (s : RS) (l : list effect) (s' : RS) : Prop :=
  count is_new l = 0.

(** The opening message and the content type option are left as they are. *)
Definition same_opening (s : RS) (l : list effect) (s' : RS) : Prop :=
  opening s' = opening s /\
  option_content_type s' = option_content_type s.

(** [RecognizeStream.getContentType]: the content type of the first four
    bytes of the buffer, read as text.  [contentType] is the table of
    [./content-type], [toString] is [Buffer.prototype.toString]. *)
Definition getContentType
    (contentType : string -> option string) (toString : list byte -> string)
    (buffer : chunk) : option string :=
  contentType (toString (firstn 4 buffer)).

(** A sample table of content types, for the examples. *)
Definition sample_table (header : string) : option string :=
  if String.eqb header "RIFF" then Some "audio/wav"
  else if String.eqb header "fLaC" then Some "audio/flac"
  else None.

(** A chunk whose first bytes the sample table does not know. *)
Definition noise : chunk := [x00; x01; x02; x03].

End Conduct.

(** ** Further properties of the aggregator *)

Module Registry.
Import ResultStream.

(** The event names [propagateEvent] acts on: all but ['data'] and ['end']. *)
Definition relayed (eventName : string) : bool :=
  negb (String.eqb eventName "data" || String.eqb eventName "end").

(** The sources [propagateEvent] wires for an event name. *)
Definition sources_for (eventName : string) (s : RSt) : list source :=
  if String.eqb eventName "error"
  then errorSources s ++ allEventSources s
  else allEventSources s.

Definition listed (eventName : string) (s : RSt) : bool :=
  match indexOf eventName (propagatedEvents s) with
  | Some _ => true
  | None => false
  end.

Definition is_registration (i : input) : bool :=
  match i with
  | PropagateErrorsFrom _ | PropagateEventsFrom _ => true
  | _ => false
  end.

Definition is_on (eventName : string) (i : input) : bool :=
  match i with
  | On n => String.eqb n eventName
  | _ => false
  end.

Definition is_listen (i : input) : bool :=
  match i with On _ => true | _ => false end.

(** The sources a list of inputs registers, in order. *)
Definition error_regs (ins : list input) : list source :=
  flat_map (fun i => match i with PropagateErrorsFrom src => [src] | _ => [] end) ins.

Definition event_regs (ins : list input) : list source :=
  flat_map (fun i => match i with PropagateEventsFrom src => [src] | _ => [] end) ins.

(** The state after registrations only. *)
Definition registered (regs : list input) : RSt :=
  {| errorSources := error_regs regs; allEventSources := event_regs regs;
     propagatedEvents := []; wires := [] |}.

Definition occurrences (src : source) (l : list source) : nat :=
  count (Nat.eqb src) l.

(** With the sources fixed, each source is wired for the listed events, once
    for each time it was registered. *)
Definition wired_once_each (r s : RSt) : Prop :=
  errorSources s = errorSources r /\
  allEventSources s = allEventSources r /\
  forall src eventName,
    subscriptions src eventName s =
    if listed eventName s then occurrences src (sources_for eventName r) else 0.

(** A forwarding listener on a source that is only an error source is one
    for ['error']. *)
Definition wire_origin (s : RSt) : Prop :=
  forall src eventName,
    In (src, eventName) (wires s) ->
    (eventName = "error" /\ In src (errorSources s)) \/
    In src (allEventSources s).


End Registry.

(** ** What [initialize] computes from the options *)

Module Connection.

(** A JavaScript value, as far as [initialize] looks at the options: [Num]
    is a natural number, [Other] is any further value (another number, an
    array, an object, [null]), seen through its truthiness and its
    conversion to a string. *)
Inductive value : Type :=
| Undefined
| Bool (b : bool)
| Num (n : nat)
| Str (s : string)
| Other (truthy : bool) (text : string).

Definition truthy (v : value) : bool :=
  match v with
  | Undefined => false
  | Bool b => b
  | Num n => negb (Nat.eqb n 0)
  | Str s => negb (String.eqb s EmptyString)
  | Other t _ => t
  end.

(** An object with string keys, in the order the keys were added. *)
Definition obj : Type := list (string * value).

(** [key in o], [o[key]] ([Undefined] for a missing key) and
    [o[key] = v]: a key that is there keeps its place. *)
Fixpoint has (key : string) (o : obj) : bool :=
  match o with
  | [] => false
  | (k, _) :: o' => String.eqb k key || has key o'
  end.

Fixpoint get (key : string) (o : obj) : value :=
  match o with
  | [] => Undefined
  | (k, v) :: o' => if String.eqb k key then v else get key o'
  end.

Fixpoint set (key : string) (v : value) (o : obj) : obj :=
  match o with
  | [] => [(key, v)]
  | (k, w) :: o' =>
      if String.eqb k key then (k, v) :: o' else (k, w) :: set key v o'
  end.

(** [Object.keys], [Object.assign(target, source)] and [pick(o, keys)] of
    the package [object.pick]: the keys of the list that are in [o], with
    their values. *)
Definition keys (o : obj) : list string := map fst o.

Definition assign (target source : obj) : obj :=
  fold_left (fun t kv => set (fst kv) (snd kv) t) source target.

Definition pick (o : obj) (ks : list string) : obj :=
  fold_left (fun res key => if has key o then set key (get key o) res else res)
            ks [].

(** The loop of [pick], from any start of the result. *)
Definition picking (o res : obj) (ks : list string) : obj :=
  fold_left (fun res key => if has key o then set key (get key o) res else res)
            ks res.

Definition OPENING_MESSAGE_PARAMS_ALLOWED : list string :=
  ["continuous"; "max_alternatives"; "timestamps"; "word_confidence";
   "inactivity_timeout"; "content-type"; "interim_results"; "keywords";
   "keywords_threshold"; "word_alternatives_threshold"].

Definition QUERY_PARAMS_ALLOWED : list string := ["model"; "watson-token"].

Definition allowed (key : string) : bool :=
  existsb (String.eqb key) OPENING_MESSAGE_PARAMS_ALLOWED.

(** The corrections at the head of [initialize]: an option under its old
    name stands in for the one under the new name when that one is missing
    or falsy. *)
Definition correction (old new : string) (options : obj) : obj :=
  if truthy (get old options) && negb (truthy (get new options))
  then set new (get old options) options
  else options.

Definition corrections (options : obj) : obj :=
  correction "X-WDC-PL-OPT-OUT" "X-Watson-Learning-Opt-Out"
    (correction "content_type" "content-type"
       (correction "token" "watson-token" options)).

(** The first write, before it calls [initialize]: a missing or falsy
    ['content-type'] is set to what [getContentType] found in the chunk. *)
Definition inferred_options (found : value) (options : obj) : obj :=
  if negb (truthy (get "content-type" options))
  then set "content-type" found options
  else options.

Section Builtins.
(** [encodeURIComponent], and the conversion of a number to a string. *)
Variable encodeURIComponent : string -> string.
Variable number_to_string : nat -> string.

Definition to_string (v : value) : string :=
  match v with
  | Undefined => "undefined"
  | Bool true => "true"
  | Bool false => "false"
  | Num n => number_to_string n
  | Str s => s
  | Other _ text => text
  end.

Definition queryParams (options : obj) : obj :=
  assign [("model", Str "en-US_BroadbandModel")] (pick options QUERY_PARAMS_ALLOWED).

Definition queryString (options : obj) : string :=
  String.concat "&"
    (map (fun key =>
            key ++ "=" ++
            (if String.eqb key "watson-token"
             then to_string (get key (queryParams options))
             else encodeURIComponent (to_string (get key (queryParams options)))))%string
         (keys (queryParams options))).

(** [s.replace(/^http/, 'ws')] *)
Definition replace_http (s : string) : string :=
  if String.prefix "http" s
  then ("ws" ++ String.substring 4 (String.length s - 4) s)%string
  else s.

(** The URL given to the socket; [replace] is a method of strings only. *)
Definition url (options : obj) : outcome string :=
  match (if truthy (get "url" options) then get "url" options
         else Str "wss://stream.watsonplatform.net/speech-to-text/api") with
  | Str base =>
      Returned (replace_http base ++ "/v1/recognize?" ++ queryString options)%string
  | _ => Thrown (TypeError "replace is not a function")
  end.
End Builtins.

Definition defaults : obj :=
  [("action", Str "start"); ("content-type", Str "audio/wav");
   ("continuous", Bool true); ("interim_results", Bool true);
   ("word_confidence", Bool true); ("timestamps", Bool true);
   ("max_alternatives", Num 3); ("inactivity_timeout", Num 30)].

Definition openingMessage (options : obj) : obj :=
  assign defaults (pick options OPENING_MESSAGE_PARAMS_ALLOWED).

(** Sample options and builtins, for the examples. *)
Definition sample_options : obj :=
  [("token", Str "a%2Fb"); ("model", Str "en-US_NarrowbandModel");
   ("url", Str "https://example.org/api"); ("action", Str "stop");
   ("max_alternatives", Num 1)].

Definition sample_encode (s : string) : string := s.
Definition sample_number (n : nat) : string := "0".

End Connection.

(** ** Flow control: the polling of [afterSend] *)

Module FlowControl.

(** [RecognizeStream.prototype.afterSend], which the session model records
    as the one effect [AfterSend]: [bufferedAmount] lists what
    [socket.bufferedAmount] reads at the successive polls, the first at the
    call and one after each timeout of 10 ms.  The result is the time, in
    ms, at which [next] is called; [None] when it is not within these
    polls. *)
Fixpoint afterSend (highWaterMark : nat) (bufferedAmount : list nat) : option nat :=
  match bufferedAmount with
  | [] => None
  | b :: later =>
      if Nat.leb b highWaterMark then Some 0
      else match afterSend highWaterMark later with
           | Some t => Some (10 + t)
           | None => None
           end
  end.

End FlowControl.

(** ** Collapsing a stream into a promise, [ResultStream.prototype.promise] *)

Module Collapse.

(** A chunk of the stream: a [Buffer], or any other value. *)
Inductive chunk : Type :=
| Buf (bytes : list byte)
| Val (text : string).

Definition isBuffer (c : chunk) : bool :=
  match c with Buf _ => true | Val _ => false end.

(** The events of the stream the promise listens to. *)
Inductive stream_event : Type :=
| Data (result : chunk)
| End
| Error (e : string).

(** How the promise is settled: resolved with a text, resolved with the
    array [results] itself, or rejected. *)
Inductive settlement : Type :=
| ResolvedText (text : string)
| ResolvedResults
| Rejected (e : string).

Record promise_state : Type := {
  results : list chunk;
  settled : option settlement
}.

Definition pending : promise_state := {| results := []; settled := None |}.

(** [resolve] and [reject] settle a promise that is not settled yet. *)
Definition settle (x : settlement) (p : promise_state) : promise_state :=
  match settled p with
  | Some _ => p
  | None => {| results := results p; settled := Some x |}
  end.

(** [Buffer.concat(list)]: the bytes of the buffers, one after the other; a
    list with an element that is not a buffer is refused. *)
Fixpoint Buffer_concat (chunks : list chunk) : outcome (list byte) :=
  match chunks with
  | [] => Returned []
  | Buf b :: chunks' =>
      match Buffer_concat chunks' with
      | Returned bs => Returned (b ++ bs)
      | Thrown e => Thrown e
      end
  | Val _ :: _ => Thrown (TypeError "list argument must be an Array of Buffers")
  end.

Section Decoding.
(** [Buffer.prototype.toString] *)
Variable toString : list byte -> string.

(** The three listeners; an exception in the ['end'] listener leaves the
    promise as it is. *)
Definition deliver (ev : stream_event) (p : promise_state) : promise_state :=
  match ev with
  | Data result => {| results := results p ++ [result]; settled := settled p |}
  | End =>
      match results p with
      | Buf _ :: _ =>
          match Buffer_concat (results p) with
          | Returned bytes => settle (ResolvedText (toString bytes)) p
          | Thrown _ => p
          end
      | _ => settle ResolvedResults p
      end
  | Error e => settle (Rejected e) p
  end.

Definition listen (p : promise_state) (events : list stream_event) : promise_state :=
  fold_left (fun p ev => deliver ev p) events p.

Definition promise (events : list stream_event) : promise_state :=
  listen pending events.
End Decoding.

(** The bytes of a list of buffers. *)
Definition bytes_of (cs : list chunk) : list byte :=
  flat_map (fun c => match c with Buf b => b | Val _ => [] end) cs.

Definition data_of (events : list stream_event) : list chunk :=
  flat_map (fun ev => match ev with Data c => [c] | _ => [] end) events.

End Collapse.

(** ** Facts about handlers *)

Module HandlerFacts.

Section Sat.
Variables St Eff : Type.
Variable R : St -> list Eff -> St -> Prop.
Hypothesis HR : stepwise R.

Lemma sat_ret A (a : A) : sat R (ret a).
Proof. intro s. apply (stepwise_refl HR). Qed.

Lemma sat_get : sat R get.
Proof. intro s. apply (stepwise_refl HR). Qed.

Lemma sat_throw A (e : exn) : sat R (throw (A := A) e).
Proof. intro s. apply (stepwise_refl HR). Qed.

Lemma sat_bind A B (m : M St Eff A) (f : A -> M St Eff B) :
  sat R m -> (forall a, sat R (f a)) -> sat R (bind m f).
Proof.
  intros Hm Hf s. unfold bind.
  destruct (outcome_of (m s)) as [a|e] eqn:E; cbn.
  - eapply (stepwise_trans HR); [apply Hm | apply Hf].
  - apply Hm.
Qed.

Lemma sat_forEach A (f : A -> M St Eff unit) (l : list A) :
  (forall a, sat R (f a)) -> sat R (forEach f l).
Proof.
  intro Hf. induction l as [|x l IH]; cbn [forEach].
  - apply sat_ret.
  - apply sat_bind; auto.
Qed.
End Sat.

Lemma count_app A (p : A -> bool) (l1 l2 : list A) :
  count p (l1 ++ l2) = count p l1 + count p l2.
Proof. unfold count. now rewrite filter_app, length_app. Qed.

Lemma count_cons A (p : A -> bool) (x : A) (l : list A) :
  count p (x :: l) = (if p x then 1 else 0) + count p l.
Proof. unfold count. cbn. now destruct (p x). Qed.

Lemma count_zero_Forall A (p : A -> bool) (l : list A) :
  count p l = 0 <-> Forall (fun x => p x = false) l.
Proof.
  induction l as [|x l IH]; [ now split | ].
  rewrite count_cons. split.
  - intro E. destruct (p x) eqn:Ex; [ discriminate | ].
    constructor; [ assumption | now apply IH ].
  - intro F. inversion F as [|? ? Ex Fl]; subst. rewrite Ex. now apply IH.
Qed.

End HandlerFacts.

(** ** The session adapter: proofs *)

Unset Implicit Arguments.

Module AdapterProofs.
Import RecognizeStream Session HandlerFacts.

Ltac unfold_handlers :=
  unfold handle, callback, _write, initialize, stop, onopen, onclose,
    onerror, onmessage, emitError, each_result, fire_onceListening,
    socket_send, socket_close, afterSend.

(** Splits a handler along its binds and branches; [leaf] closes the
    primitive steps. *)
Ltac sat_split HR leaf :=
  repeat first
    [ apply (sat_ret HR)
    | apply (sat_get HR)
    | apply (sat_throw HR)
    | leaf
    | apply (sat_forEach HR)
    | apply (sat_bind HR)
    | match goal with
      | |- forall _, _ => intro
      | |- sat _ (if ?b then _ else _) => destruct b eqn:?
      | |- sat _ (match ?x with _ => _ end) => destruct x eqn:?
      end ].

Section Parse.
Variable JSON_parse : string -> string + json.
Variable getContentType : chunk -> option string.
Variable old_content_type : option string.

Local Abbreviation handle := (handle JSON_parse getContentType old_content_type).
Local Abbreviation run := (run JSON_parse getContentType old_content_type).
Local Abbreviation trace := (trace JSON_parse getContentType old_content_type).
Local Abbreviation final_state :=
  (final_state JSON_parse getContentType old_content_type).
Local Abbreviation _write := (_write getContentType old_content_type).

Lemma run_sat (R : RS -> list effect -> RS -> Prop) :
  stepwise R -> (forall i, sat R (handle i)) ->
  forall ins s, R s (snd (run s ins)) (fst (run s ins)).
Proof.
  intros HR Hh ins. induction ins as [|i ins IH]; intro s; cbn.
  - apply (stepwise_refl HR).
  - eapply (stepwise_trans HR); [ apply Hh | apply IH ].
Qed.

Lemma run_app (s : RS) (ins1 ins2 : list input) :
  run s (ins1 ++ ins2) =
  (fst (run (fst (run s ins1)) ins2),
   snd (run s ins1) ++ snd (run (fst (run s ins1)) ins2)).
Proof.
  revert s. induction ins1 as [|i ins1 IH]; intro s; cbn.
  - now destruct (run s ins2).
  - rewrite IH. cbn. now rewrite app_assoc.
Qed.

(** *** The stop message *)

Lemma stop_budget_stepwise : stepwise stop_budget.
Proof.
  split; unfold stop_budget.
  - intro s. cbn. lia.
  - intros s l1 s1 l2 s2 H1 H2. rewrite count_app. lia.
Qed.

Lemma finish_budget : sat stop_budget finish.
Proof.
  intros [l i f k ct o ol oc onf]. unfold stop_budget, stop_potential.
  destruct f, k; cbn; lia.
Qed.

Lemma fire_onceConnect_budget (n : nat) (s : RS) :
  n <= onceConnect s ->
  stop_budget s (log_of (forEach fire_onceConnect (repeat tt n) s))
                (state_of (forEach fire_onceConnect (repeat tt n) s)).
Proof.
  revert s. induction n as [|n IH]; intros s Hn.
  - apply (stepwise_refl stop_budget_stepwise).
  - cbn [repeat forEach]. unfold bind at 1.
    destruct s as [l i f k ct o ol oc onf]. cbn in Hn.
    destruct oc as [|oc]; [ lia | ].
    destruct k; cbn.
    + match goal with
      | |- stop_budget _ (_ :: log_of (forEach _ _ ?s1)) _ =>
          specialize (IH s1)
      end.
      cbn in IH. unfold stop_budget, stop_potential in *.
      rewrite count_cons. cbn in *. lia.
    + unfold stop_budget, stop_potential. cbn. lia.
Qed.

Lemma emit_budget (e : event) : sat stop_budget (emit e).
Proof.
  destruct e; unfold emit.
  1: { intro s. unfold bind at 1. cbn.
       pose proof (@fire_onceConnect_budget (onceConnect s) s (le_n _)) as B.
       unfold stop_budget in *. rewrite count_cons. cbn. exact B. }
  all: unfold_handlers;
    sat_split stop_budget_stepwise
      ltac:(solve [ intro s; unfold stop_budget, stop_potential; cbn; lia ]).
Qed.

Lemma handle_budget (i : input) : sat stop_budget (handle i).
Proof.
  destruct i; unfold_handlers;
    sat_split stop_budget_stepwise
      ltac:(first [ apply finish_budget
                  | apply emit_budget
                  | solve [ intro s; unfold stop_budget, stop_potential;
                            cbn; lia ] ]).
Qed.

Lemma finished_stays_stepwise : stepwise finished_stays.
Proof. split; unfold finished_stays; auto. Qed.

Lemma handle_finished_stays (i : input) : sat finished_stays (handle i).
Proof.
  destruct i; unfold_handlers; unfold finish, emit, fire_onceConnect;
    unfold_handlers;
    sat_split finished_stays_stepwise
      ltac:(solve [ intro s; unfold finished_stays; cbn; auto ]).
Qed.

(** C2. In every session, whatever the end-of-input events, stop calls and
    finish calls it contains, the stop message is sent at most once; once
    [finished] is set it stays set, and [finish] then does nothing. *)
Theorem stop_sent_at_most_once (ct : option string) (ins : list input) :
  count is_stop (trace ct ins) <= 1 /\
  (forall s i, finished s = true -> finished (state_of (handle i s)) = true) /\
  (forall s, finished s = true -> finish s = Reply s [] (Returned tt)).
Proof.
  split; [ | split ].
  - pose proof (run_sat _ stop_budget_stepwise handle_budget ins (create ct)) as B.
    unfold stop_budget, stop_potential in B. cbn in B.
    unfold trace, RecognizeStream.trace. lia.
  - intros s i. apply handle_finished_stays.
  - intros s E. unfold finish, bind. cbn. now rewrite E.
Qed.

(** *** Audio waits for the listening signal *)

Lemma audio_guarded_app_raised (l1 l2 : list effect) :
  audio_guarded l1 = true -> existsb is_listening_raised l1 = true ->
  audio_guarded (l1 ++ l2) = true.
Proof.
  induction l1 as [|e l1 IH]; cbn; [ discriminate | ].
  destruct e as [ | [ | | ] | | [] | | ]; cbn; auto; discriminate.
Qed.

Lemma audio_guarded_app_quiet (l1 l2 : list effect) :
  audio_guarded l1 = true -> existsb is_listening_raised l1 = false ->
  audio_guarded (l1 ++ l2) = audio_guarded l2.
Proof.
  induction l1 as [|e l1 IH]; cbn; [ reflexivity | ].
  destruct e as [ | [ | | ] | | [] | | ]; cbn; auto; discriminate.
Qed.

Lemma audio_guarded_sound (l : list effect) :
  audio_guarded l = true ->
  forall pre c post, l = pre ++ SockSend (Audio c) :: post ->
                     In (Emit Listening) pre.
Proof.
  intros G pre. revert l G.
  induction pre as [|e pre IH]; intros l G c post ->.
  - discriminate G.
  - destruct e as [ | [ | | ] | | [] | | ]; cbn in G;
      try discriminate G;
      try (right; eapply IH; [ exact G | reflexivity ]).
    now left.
Qed.

Lemma quiet_stepwise : stepwise quiet_until_listening.
Proof.
  split; unfold quiet_until_listening.
  - intros s L. split; auto.
  - intros s l1 s1 l2 s2 H1 H2 L. destruct (H1 L) as [G1 Q1].
    rewrite existsb_app.
    destruct (existsb is_listening_raised l1) eqn:E.
    + split; [ now apply audio_guarded_app_raised | discriminate ].
    + destruct (H2 (Q1 eq_refl)) as [G2 Q2].
      split; [ now rewrite audio_guarded_app_quiet | exact Q2 ].
Qed.

Ltac quiet_leaf :=
  solve [ intro s; unfold quiet_until_listening; cbn; auto ].

Lemma raise_listening_quiet :
  sat quiet_until_listening (modify (set_listening true) ;; emit Listening).
Proof.
  intros s _. unfold emit, bind. cbn. split; [ reflexivity | discriminate ].
Qed.

(** The listeners of ['listening'], run on a socket: each sends its chunk
    and leaves the list. *)
Lemma fire_onceListening_once (c : chunk) (s : RS) :
  socket s = true ->
  fire_onceListening c s =
  Reply (set_onceListening (tl (onceListening s)) s)
        [SockSend (Audio c); AfterSend] (Returned tt).
Proof.
  destruct s as [l i f k o op ol oc onf]. cbn. intros ->. reflexivity.
Qed.

Lemma fire_onceListening_sends (cs : list chunk) (s : RS) :
  socket s = true ->
  let r := forEach fire_onceListening cs s in
  log_of r = audio_sends cs /\
  state_of r = set_onceListening (skipn (List.length cs) (onceListening s)) s /\
  outcome_of r = Returned tt.
Proof.
  revert s. induction cs as [|c cs IH]; intros s K.
  - destruct s; cbn. repeat split.
  - cbn [forEach]. unfold bind. rewrite (fire_onceListening_once c s K).
    cbn [outcome_of state_of log_of].
    destruct (IH (set_onceListening (tl (onceListening s)) s) K) as (A & B & C).
    rewrite A, B, C. cbn. repeat split.
    destruct s as [l i f k o op ol oc onf]; cbn.
    destruct ol; cbn; [ now rewrite skipn_nil | reflexivity ].
Qed.

Lemma emit_quiet (e : event) : sat quiet_until_listening (emit e).
Proof.
  destruct e; unfold emit.
  2: { intros s _. unfold bind at 1. cbn. split; [ reflexivity | discriminate ]. }
  all: unfold fire_onceConnect; unfold_handlers;
    sat_split quiet_stepwise quiet_leaf.
Qed.

(** [initialize] and a deferred write, in closed form. *)
Lemma initialize_reply (s : RS) :
  initialize old_content_type s =
  Reply {| listening := listening s; initialized := true;
           finished := finished s; socket := true;
           option_content_type :=
             (if truthy old_content_type && negb (truthy (option_content_type s))
              then old_content_type else option_content_type s);
           opening :=
             {| content_type :=
                  if truthy old_content_type && negb (truthy (option_content_type s))
                  then old_content_type else option_content_type s |};
           onceListening := onceListening s; onceConnect := onceConnect s;
           onFinish := S (onFinish s) |}
        [SockNew] (Returned tt).
Proof.
  destruct s as [l i f k ct o ol oc onf]. unfold initialize, bind. cbn.
  destruct (truthy old_content_type && negb (truthy ct)); reflexivity.
Qed.

Lemma write_reply (c : chunk) (s : RS) :
  listening s = false ->
  _write c s =
  if initialized s
  then Reply (set_onceListening (onceListening s ++ [c]) s) [] (Returned tt)
  else
    let s1 := if truthy (option_content_type s) then s
              else set_option_content_type (getContentType c) s in
    let r := initialize old_content_type s1 in
    Reply (set_onceListening (onceListening s ++ [c]) (state_of r))
          [SockNew] (Returned tt).
Proof.
  destruct s as [l i f k ct o ol oc onf]. cbn [listening]. intros ->.
  destruct i.
  - reflexivity.
  - cbn [initialized option_content_type onceListening].
    destruct (truthy ct) eqn:T;
      unfold RecognizeStream._write, bind;
      cbn [get outcome_of state_of log_of listening initialized negb
           option_content_type];
      rewrite T; cbn [negb ret modify outcome_of state_of log_of];
      rewrite initialize_reply; reflexivity.
Qed.

Lemma write_quiet (c : chunk) : sat quiet_until_listening (_write c).
Proof.
  intros s L. rewrite (write_reply c s L).
  destruct (initialized s); cbn zeta; [ | rewrite initialize_reply ];
    destruct (truthy (option_content_type s)); cbn; now split.
Qed.

Lemma handle_quiet (i : input) : sat quiet_until_listening (handle i).
Proof.
  destruct i; try apply write_quiet;
    unfold_handlers; unfold finish;
    sat_split quiet_stepwise
      ltac:(first [ apply raise_listening_quiet | apply emit_quiet | quiet_leaf ]).
Qed.

Lemma callback_off (h : H unit) (s : RS) :
  socket s = false -> callback h s = Reply s [] (Returned tt).
Proof. intro K. unfold callback, bind. cbn. now rewrite K. Qed.

Lemma callback_on (h : H unit) (s : RS) :
  socket s = true -> callback h s = h s.
Proof.
  intro K. unfold callback, bind. cbn. rewrite K.
  destruct (h s) as [s' l [[]|e]]; reflexivity.
Qed.

Lemma hushed_stepwise : stepwise hushed.
Proof.
  split; unfold hushed.
  - intro s. repeat split; auto.
  - intros s l1 s1 l2 s2 [A1 B1] [A2 B2]. rewrite !count_app, A1, A2.
    split; [ reflexivity | ]. intro L.
    destruct (B1 L) as [L1 C1]. destruct (B2 L1) as [L2 C2].
    rewrite C1, C2. now split.
Qed.

Ltac hushed_leaf :=
  solve [ intro s; unfold hushed; cbn; auto ].

Lemma emitError_hushed (msg : string) (fr : frame) (err : option string) :
  sat hushed (emitError msg fr err).
Proof.
  unfold emitError, emit. destruct err;
    sat_split hushed_stepwise hushed_leaf.
Qed.

Lemma each_result_hushed (r : result) : sat hushed (each_result r).
Proof.
  unfold each_result, emit. sat_split hushed_stepwise hushed_leaf.
Qed.

Lemma onmessage_hushed (fr : frame) :
  is_listening_report JSON_parse (OnMessage fr) = false ->
  sat hushed (onmessage JSON_parse fr).
Proof.
  destruct fr as [raw|b]; cbn [is_listening_report onmessage];
    [ | intros _; apply emitError_hushed ].
  destruct (JSON_parse raw) as [jsonEx|[|d]];
    [ intros _; apply emitError_hushed
    | intros _; unfold emit; sat_split hushed_stepwise hushed_leaf
    | ].
  destruct (truthy (error d)); cbn [negb andb].
  - intros _. apply (sat_bind hushed_stepwise);
      [ unfold emit; sat_split hushed_stepwise hushed_leaf
      | intros _; apply emitError_hushed ].
  - intros ->. apply (sat_bind hushed_stepwise);
      [ unfold emit; sat_split hushed_stepwise hushed_leaf | intros _ ].
    destruct (results d) as [rs|]; [ | apply emitError_hushed ].
    apply (sat_bind hushed_stepwise);
      [ unfold emit; sat_split hushed_stepwise hushed_leaf | intros _ ].
    apply (sat_forEach hushed_stepwise). apply each_result_hushed.
Qed.

Lemma write_hushed (c : chunk) : sat hushed (_write c).
Proof.
  intro s. destruct (listening s) eqn:L.
  - destruct s as [l i f k ct o ol oc onf]. cbn [listening] in L. subst l.
    unfold hushed. destruct k; cbn; split; auto; discriminate.
  - rewrite (write_reply c s L). unfold hushed.
    destruct (initialized s); cbn zeta; [ | rewrite initialize_reply ];
      destruct (truthy (option_content_type s)); cbn; auto.
Qed.

Lemma handle_hushed (i : input) :
  is_listening_report JSON_parse i = false -> sat hushed (handle i).
Proof.
  destruct i; intro N; try apply write_hushed.
  7: { unfold RecognizeStream.handle, callback.
       sat_split hushed_stepwise
         ltac:(first [ apply onmessage_hushed; exact N | hushed_leaf ]). }
  all: unfold_handlers; unfold finish, emit, fire_onceConnect;
    unfold_handlers; cbn beta iota;
    sat_split hushed_stepwise hushed_leaf.
Qed.

Lemma run_hushed (ins : list input) (s : RS) :
  existsb (is_listening_report JSON_parse) ins = false ->
  hushed s (snd (run s ins)) (fst (run s ins)).
Proof.
  revert s. induction ins as [|i ins IH]; intros s N; cbn.
  - apply (stepwise_refl hushed_stepwise).
  - cbn [existsb] in N. apply orb_false_iff in N. destruct N as [Ni Nr].
    eapply (stepwise_trans hushed_stepwise);
      [ apply (handle_hushed i Ni) | apply (IH _ Nr) ].
Qed.

(** What the adapter does on a listening report, on a socket. *)
Lemma report_reply (raw : string) (d : payload) (s : RS) :
  JSON_parse raw = inr (JObject d) ->
  truthy (error d) = false ->
  state d = Some "listening" ->
  socket s = true ->
  let r := handle (OnMessage (TextFrame raw)) s in
  if listening s
  then log_of r = [Emit (Message (JObject d)); Push None; SockClose]
  else log_of r =
         Emit (Message (JObject d)) :: Emit Listening ::
         audio_sends (onceListening s) /\
       listening (state_of r) = true /\
       onceListening (state_of r) = [].
Proof.
  intros P T St K. destruct s as [l i f k ct o ol oc onf].
  cbn [socket] in K. subst k. cbn zeta.
  unfold RecognizeStream.handle, callback, onmessage. rewrite P, T, St.
  pose proof (fire_onceListening_sends ol
                (set_listening true
                   {| listening := false; initialized := i; finished := f;
                      socket := true; option_content_type := ct; opening := o;
                      onceListening := ol; onceConnect := oc; onFinish := onf |})
                eq_refl) as (A & B & _).
  destruct l; cbn; [ reflexivity | ].
  rewrite A, B. cbn. repeat split. apply skipn_all.
Qed.

(** C1. No audio chunk is handed to the transport before the server's
    first listening report has come in: in the part of a session handled
    before the first listening report no audio is sent, no ['listening']
    event is raised and the adapter is not listening; the adapter raises
    ['listening'] only in the handler of a listening report, on its socket
    and while it is not listening, and on such a report it does raise it
    and sends the deferred chunks, in the order of the writes.  So each
    audio chunk handed to the transport comes after a ['listening'] event.
    A write made while [listening] is false sends nothing: it runs
    [initialize] if that has not been done, and leaves the chunk with a
    [once('listening')] listener; when ['listening'] is raised, the
    deferred chunks are sent. *)
Theorem no_audio_before_listening (ct : option string) (ins : list input) :
  (forall pre c post,
      trace ct ins = pre ++ SockSend (Audio c) :: post ->
      In (Emit Listening) pre) /\
  (forall s c,
      listening s = false ->
      let r := _write c s in
      log_of r = (if initialized s then [] else [SockNew]) /\
      onceListening (state_of r) = onceListening s ++ [c] /\
      initialized (state_of r) = true /\
      listening (state_of r) = false) /\
  (forall s,
      socket s = true ->
      let r := emit Listening s in
      log_of r = Emit Listening :: audio_sends (onceListening s) /\
      onceListening (state_of r) = []) /\
  (forall ins1 ins2,
      ins = ins1 ++ ins2 ->
      existsb (is_listening_report JSON_parse) ins1 = false ->
      (exists rest, trace ct ins = trace ct ins1 ++ rest) /\
      count is_audio (trace ct ins1) = 0 /\
      count is_listening_raised (trace ct ins1) = 0 /\
      listening (final_state ct ins1) = false) /\
  (forall s i,
      In (Emit Listening) (log_of (handle i s)) ->
      is_listening_report JSON_parse i = true /\
      socket s = true /\ listening s = false) /\
  (forall s raw d,
      JSON_parse raw = inr (JObject d) ->
      truthy (error d) = false ->
      state d = Some "listening" ->
      socket s = true ->
      listening s = false ->
      let r := handle (OnMessage (TextFrame raw)) s in
      log_of r =
        Emit (Message (JObject d)) :: Emit Listening ::
        audio_sends (onceListening s) /\
      listening (state_of r) = true /\
      onceListening (state_of r) = []).
Proof.
  split; [ | split; [ | split; [ | split; [ | split ] ] ] ].
  - apply audio_guarded_sound.
    pose proof (run_sat _ quiet_stepwise handle_quiet ins (create ct)) as Q.
    now apply Q.
  - intros s c L. cbn zeta. rewrite (write_reply c s L).
    destruct (initialized s) eqn:I; cbn zeta; [ | rewrite initialize_reply ];
      destruct (truthy (option_content_type s)); cbn; repeat split; auto.
  - intros s K. unfold emit. unfold bind at 1. cbn.
    pose proof (fire_onceListening_sends (onceListening s) s K) as (A & B & _).
    rewrite A, B. split; [ reflexivity | ].
    destruct s; cbn. apply skipn_all.
  - intros ins1 ins2 -> N.
    destruct (run_hushed ins1 (create ct) N) as [R Q].
    destruct (Q eq_refl) as [L A].
    unfold trace, final_state, RecognizeStream.trace,
      RecognizeStream.final_state.
    rewrite run_app. cbn [snd].
    split; [ eexists; reflexivity | auto ].
  - intros s i E.
    destruct (is_listening_report JSON_parse i) eqn:N.
    + destruct i as [ | | | | | | |[raw|b]]; try discriminate N.
      cbn [is_listening_report] in N.
      destruct (JSON_parse raw) as [jsonEx|[|d]] eqn:P; try discriminate N.
      apply andb_true_iff in N. destruct N as [T St].
      apply negb_true_iff in T.
      destruct (state d) as [st|] eqn:Sd; [ | discriminate St ].
      apply String.eqb_eq in St. subst st.
      split; [ reflexivity | ].
      destruct (socket s) eqn:K.
      * pose proof (report_reply raw d s P T Sd K) as Y. cbn zeta in Y.
        destruct (listening s).
        -- rewrite Y in E. cbn in E.
           destruct E as [E|[E|[E|[]]]]; discriminate E.
        -- now split.
      * cbn [RecognizeStream.handle] in E.
        rewrite (callback_off _ _ K) in E. destruct E.
    + exfalso. destruct (handle_hushed i N s) as [R _].
      apply count_zero_Forall in R. rewrite Forall_forall in R.
      specialize (R _ E). discriminate R.
  - intros s raw d P T Sd K L.
    pose proof (report_reply raw d s P T Sd K) as Y. cbn zeta in Y.
    rewrite L in Y. exact Y.
Qed.

(** *** The opening message *)

Lemma same_conn_stepwise : stepwise same_conn.
Proof.
  split; unfold same_conn.
  - now intros.
  - intros s l1 s1 l2 s2 [A B] [C D]. split; congruence.
Qed.

Lemma same_listening_stepwise : stepwise same_listening.
Proof. split; unfold same_listening; intros; congruence. Qed.

Lemma no_start_stepwise : stepwise no_start.
Proof.
  split; unfold no_start.
  - reflexivity.
  - intros s l1 s1 l2 s2 A B. rewrite count_app. lia.
Qed.

Ltac unfold_all :=
  unfold_handlers; unfold finish, emit, fire_onceConnect; unfold_handlers.

Lemma emit_same_conn (e : event) : sat same_conn (emit e).
Proof.
  destruct e; unfold_all;
    sat_split same_conn_stepwise
      ltac:(solve [ intro s; unfold same_conn; cbn; auto ]).
Qed.

Lemma emit_no_start (e : event) : sat no_start (emit e).
Proof.
  destruct e; unfold_all;
    sat_split no_start_stepwise ltac:(solve [ intro s; reflexivity ]).
Qed.

Lemma handle_same_conn (i : input) :
  is_write i = false -> sat same_conn (handle i).
Proof.
  destruct i; try discriminate; intros _; unfold_all;
    sat_split same_conn_stepwise
      ltac:(solve [ intro s; unfold same_conn; cbn; auto ]).
Qed.

Lemma handle_no_start (i : input) :
  is_open i = false -> sat no_start (handle i).
Proof.
  destruct i; try discriminate; intros _; unfold_all;
    sat_split no_start_stepwise ltac:(solve [ intro s; reflexivity ]).
Qed.

Lemma onopen_log (s : RS) :
  socket s = true ->
  log_of (onopen s) =
  SockSend (Start (opening s)) :: Emit Connect ::
  log_of (forEach fire_onceConnect (repeat tt (onceConnect s)) s).
Proof.
  intro K. unfold onopen, socket_send, emit, bind. cbn. rewrite K. cbn.
  reflexivity.
Qed.

Lemma fire_onceConnect_no_start (l : list unit) (s : RS) :
  count is_start (log_of (forEach fire_onceConnect l s)) = 0.
Proof.
  revert s. apply (sat_forEach no_start_stepwise). intro a.
  unfold fire_onceConnect, socket_send.
  sat_split no_start_stepwise ltac:(solve [ intro s; reflexivity ]).
Qed.

Lemma handle_same_listening (i : input) :
  match i with
  | EndOfInput | StopCall _ | FinishCall | OnOpen => True
  | _ => False
  end ->
  sat same_listening (handle i).
Proof.
  destruct i; try contradiction; intros _; unfold_all;
    sat_split same_listening_stepwise
      ltac:(solve [ intro s; unfold same_listening; cbn; auto ]).
Qed.

Lemma write_conn (c : chunk) (s : RS) :
  socket_inv s ->
  let r := _write c s in
  socket_inv (state_of r) /\ socket (state_of r) = true /\
  count is_start (log_of r) = 0.
Proof.
  destruct s as [l i f k o op ol oc onf]. unfold socket_inv.
  cbn [socket initialized listening]. intros [E L]. subst i.
  destruct l; [ rewrite (L eq_refl); cbn; auto | ].
  cbn zeta. rewrite write_reply by reflexivity.
  destruct k; cbn zeta; [ | rewrite initialize_reply ];
    cbn [initialized option_content_type];
    try destruct (truthy o); cbn; auto.
Qed.

Lemma conn_step (i : input) (s : RS) :
  socket_inv s ->
  let r := handle i s in
  socket_inv (state_of r) /\
  socket (state_of r) = (socket s || is_write i)%bool /\
  count is_start (log_of r) = (if is_open i then b2n (socket s) else 0).
Proof.
  intros I.
  assert (W : is_write i = false ->
              socket (state_of (handle i s)) = socket s /\
              initialized (state_of (handle i s)) = initialized s)
    by (intro W; apply (handle_same_conn i W s)).
  assert (S : is_open i = false -> count is_start (log_of (handle i s)) = 0)
    by (intro S; apply (handle_no_start i S s)).
  assert (C : forall h, handle i = callback h ->
              socket s = false -> handle i s = Reply s [] (Returned tt))
    by (intros h -> K; now apply callback_off).
  assert (F : is_write i = false -> is_open i = false ->
              listening (state_of (handle i s)) = listening s ->
              socket_inv (state_of (handle i s)) /\
              socket (state_of (handle i s)) = (socket s || is_write i)%bool /\
              count is_start (log_of (handle i s)) =
                (if is_open i then b2n (socket s) else 0)).
  { intros Wf Of Lf. destruct (W Wf) as [Ws Wi]. destruct I as [E L].
    unfold socket_inv. rewrite Ws, Wi, Lf, Wf, Of, orb_false_r.
    repeat split; auto. }
  assert (G : forall h, handle i = callback h ->
              is_write i = false -> is_open i = false ->
              socket_inv (state_of (handle i s)) /\
              socket (state_of (handle i s)) = (socket s || is_write i)%bool /\
              count is_start (log_of (handle i s)) =
                (if is_open i then b2n (socket s) else 0)).
  { intros h Eh Wf Of.
    destruct (socket s) eqn:K.
    - destruct (W Wf) as [Ws Wi]. destruct I as [E L].
      unfold socket_inv. rewrite Ws, Wi, Wf, Of, E, K.
      repeat split; auto.
    - rewrite (C h Eh eq_refl), Wf, Of. cbn. rewrite K.
      repeat split; apply I. }
  destruct i; cbn [handle] in *.
  - destruct (write_conn c s I) as (A & B & D). cbn [is_write is_open].
    rewrite orb_true_r. split; [ exact A | split; [ exact B | exact D ] ].
  - apply F; try reflexivity. now apply (handle_same_listening EndOfInput).
  - apply F; try reflexivity. now apply (handle_same_listening (StopCall hard)).
  - apply F; try reflexivity. now apply (handle_same_listening FinishCall).
  - cbn [is_write is_open]. rewrite orb_false_r.
    destruct (W eq_refl) as [Ws Wi].
    pose proof (handle_same_listening OnOpen Logic.I s) as SL.
    unfold same_listening in SL. cbn [handle] in SL.
    destruct I as [E L]. unfold socket_inv. rewrite Ws, Wi, SL.
    repeat split; auto.
    destruct (socket s) eqn:K.
    + rewrite (callback_on _ _ K), (onopen_log s K).
      rewrite !count_cons. cbn [is_start].
      now rewrite (fire_onceConnect_no_start (repeat tt (onceConnect s)) s).
    + now rewrite (callback_off _ _ K).
  - now apply (G (onerror err)).
  - now apply (G (onclose code reason)).
  - now apply (G (onmessage JSON_parse fr)).
Qed.

Lemma run_inv (ins : list input) (s : RS) :
  socket_inv s -> socket_inv (fst (run s ins)).
Proof.
  revert s. induction ins as [|i ins IH]; intros s I; cbn; [ exact I | ].
  apply IH. now apply conn_step.
Qed.

Lemma run_starts (ins : list input) (s : RS) :
  socket_inv s ->
  count is_start (snd (run s ins)) = opens_delivered (socket s) ins.
Proof.
  revert s. induction ins as [|i ins IH]; intros s I; [ reflexivity | ].
  destruct (conn_step i s I) as (I' & K & N).
  cbn [run snd]. rewrite count_app, N, (IH _ I'), K.
  destruct i; cbn; rewrite ?orb_true_r, ?orb_false_r; reflexivity.
Qed.

Lemma opens_delivered_none (b : bool) (ins : list input) :
  ~ In OnOpen ins -> opens_delivered b ins = 0.
Proof.
  revert b. induction ins as [|i ins IH]; intros b N; [ reflexivity | ].
  assert (N' : ~ In OnOpen ins) by (intro; apply N; now right).
  destruct i; cbn; auto. exfalso. apply N. now left.
Qed.

Lemma no_start_then_connect (l : list effect) :
  count is_start l = 0 -> start_then_connect l.
Proof.
  intros Z pre m post ->. rewrite count_app, count_cons in Z.
  cbn in Z. lia.
Qed.

Lemma start_then_connect_app (l1 l2 : list effect) :
  start_then_connect l1 -> start_then_connect l2 ->
  start_then_connect (l1 ++ l2).
Proof.
  intros P1 P2 pre m post E.
  apply app_eq_app in E. destruct E as [k [[E1 E2] | [E1 E2]]].
  - destruct k as [|e k].
    + cbn in E2. apply (P2 [] m post). now rewrite E2.
    + cbn in E2. injection E2 as <- ->.
      destruct (P1 pre m k E1) as [post' ->]. now exists (post' ++ l2).
  - apply (P2 k m post E2).
Qed.

Lemma handle_start_then_connect (i : input) (s : RS) :
  start_then_connect (log_of (handle i s)).
Proof.
  destruct (is_open i) eqn:O.
  - destruct i; try discriminate. cbn [handle].
    destruct (socket s) eqn:K.
    + rewrite (callback_on _ _ K), (onopen_log s K).
      intros pre m post E. destruct pre as [|e pre].
      * injection E as _ <-. eauto.
      * injection E as _ E. destruct pre as [|e' pre].
        -- discriminate E.
        -- injection E as _ E.
           pose proof (fire_onceConnect_no_start (repeat tt (onceConnect s)) s) as Z.
           rewrite E, count_app, count_cons in Z. cbn in Z. lia.
    + rewrite (callback_off _ _ K). now apply no_start_then_connect.
  - apply no_start_then_connect. now apply handle_no_start.
Qed.

Lemma run_start_then_connect (ins : list input) (s : RS) :
  start_then_connect (snd (run s ins)).
Proof.
  revert s. induction ins as [|i ins IH]; intro s; cbn.
  - now apply no_start_then_connect.
  - apply start_then_connect_app; [ apply handle_start_then_connect | apply IH ].
Qed.

(** C3. In every session the opening message is sent once for each open
    report the transport delivers: exactly once when the transport opens
    once, and never without an open report; each time, ['connect'] is raised
    directly after it. *)
Theorem opening_message_once (ct : option string) (ins : list input) :
  count is_start (trace ct ins) = opens_delivered false ins /\
  (opens_delivered false ins = 1 -> count is_start (trace ct ins) = 1) /\
  (~ In OnOpen ins -> count is_start (trace ct ins) = 0) /\
  (forall pre m post,
      trace ct ins = pre ++ SockSend (Start m) :: post ->
      exists post', post = Emit Connect :: post').
Proof.
  assert (I : socket_inv (create ct)) by (split; [ reflexivity | discriminate ]).
  assert (E : count is_start (trace ct ins) = opens_delivered false ins)
    by apply (run_starts ins _ I).
  split; [ exact E | split; [ | split ] ].
  - intro O. now rewrite E.
  - intro N. rewrite E. now apply opens_delivered_none.
  - apply run_start_then_connect.
Qed.

(** *** The listening flag and the end of output *)

Lemma end_budget_stepwise : stepwise end_budget.
Proof.
  split; unfold end_budget.
  - intro s. cbn. lia.
  - intros s l1 s1 l2 s2 A B. rewrite !count_app. lia.
Qed.

Ltac end_leaf :=
  solve [ intro s; unfold end_budget, count; cbn; lia ].

Lemma emit_end_budget (e : event) : sat end_budget (emit e).
Proof.
  destruct e; unfold emit, fire_onceConnect; unfold_handlers;
    sat_split end_budget_stepwise end_leaf.
Qed.

Lemma listening_report_end_budget :
  sat end_budget
    (s <- get ;;
     if negb (listening s) then
       modify (set_listening true) ;; emit Listening
     else
       modify (set_listening false) ;; log (Push None) ;; socket_close).
Proof.
  intro s. destruct (listening s) eqn:L.
  - unfold socket_close, bind, end_budget.
    destruct s as [l i f k o op ol oc onf]. cbn in L. subst l.
    destruct k; cbn; lia.
  - assert (B : sat end_budget (forEach fire_onceListening (onceListening s))).
    { apply (sat_forEach end_budget_stepwise). intro c. unfold_handlers.
      sat_split end_budget_stepwise end_leaf. }
    specialize (B (set_listening true s)).
    unfold end_budget, emit, bind, count in *. cbn. rewrite L. cbn in *. lia.
Qed.

Lemma onclose_end_budget (code : nat) (reason : string) :
  sat end_budget (onclose code reason).
Proof.
  intro s. unfold onclose, emit, bind. cbn. unfold end_budget.
  destruct (listening s) eqn:L; cbn; rewrite ?L; cbn; lia.
Qed.

Lemma handle_end_budget (i : input) : sat end_budget (handle i).
Proof.
  destruct i;
    unfold handle, callback, _write, initialize, stop, onopen, onerror,
      onmessage, emitError, each_result, socket_send, socket_close,
      afterSend, finish;
    sat_split end_budget_stepwise
      ltac:(first [ apply listening_report_end_budget
                  | apply onclose_end_budget
                  | apply emit_end_budget
                  | end_leaf ]).
Qed.

(** C4, as amended.  A listening report toggles the flag, whether or not
    the stop message was sent: received while [listening] is true it
    clears the flag, pushes the end of output once and closes the
    transport; received while [listening] is false, also after such a
    transition, it sets the flag, raises ['listening'] and sends the
    deferred chunks.  In every session the ends of output pushed, plus one
    if the adapter still listens, never exceed the times ['listening'] was
    raised. *)
Theorem listening_report_toggles (ct : option string) (ins : list input) :
  (forall s raw d,
      socket s = true ->
      JSON_parse raw = inr (JObject d) ->
      truthy (error d) = false ->
      state d = Some "listening" ->
      let r := onmessage JSON_parse (TextFrame raw) s in
      (listening s = true ->
       state_of r = set_listening false s /\
       log_of r = [Emit (Message (JObject d)); Push None; SockClose]) /\
      (listening s = false ->
       listening (state_of r) = true /\
       log_of r = Emit (Message (JObject d)) :: Emit Listening ::
                  audio_sends (onceListening s))) /\
  count is_end_of_output (trace ct ins) + b2n (listening (final_state ct ins))
  <= count is_listening_raised (trace ct ins).
Proof.
  split.
  - intros s raw d K P E St. unfold onmessage. rewrite P, E, St.
    split; intro L.
    + unfold emit, socket_close, bind. cbn. rewrite L. cbn. rewrite K. cbn.
      now split.
    + unfold emit, bind. cbn. rewrite L. cbn.
      destruct (fire_onceListening_sends (onceListening s)
                  (set_listening true s) K) as (A & B & C).
      rewrite A, B. now split.
  - pose proof (run_sat _ end_budget_stepwise handle_end_budget ins (create ct)) as B.
    unfold end_budget in B. cbn in B.
    unfold trace, final_state, RecognizeStream.trace,
      RecognizeStream.final_state. lia.
Qed.

(** *** Results frames *)

Lemma each_result_in_bounds (r : result) (s : RS) :
  in_bounds r -> each_result r s = Reply s (result_log r) (Returned tt).
Proof.
  destruct r as [f [[|a al]|]]; destruct f; unfold in_bounds; cbn;
    intro B; try reflexivity.
  now destruct (B eq_refl).
Qed.

Lemma each_result_out_of_bounds (r : result) (s : RS) :
  final r = true -> alternatives r = Some [] ->
  each_result r s =
  Reply s [Emit (Result r)]
        (Thrown (TypeError "Cannot read property 'transcript' of undefined")).
Proof.
  destruct r as [f alts]. cbn. intros -> ->. reflexivity.
Qed.

Lemma in_bounds_dec (r : result) :
  in_bounds r \/ (final r = true /\ alternatives r = Some []).
Proof.
  destruct r as [f [[|a al]|]]; destruct f; unfold in_bounds; cbn;
    try (left; intros; discriminate); now right.
Qed.

Lemma forEach_each_result (rs : list result) (s : RS) :
  let r := forEach each_result rs s in
  state_of r = s /\
  (Forall in_bounds rs ->
   log_of r = flat_map result_log rs /\ outcome_of r = Returned tt) /\
  (outcome_of r = Returned tt -> Forall in_bounds rs).
Proof.
  induction rs as [|r rs IH]; cbn [forEach].
  - cbn. repeat split. constructor.
  - destruct IH as (A & B & C). unfold bind.
    destruct (in_bounds_dec r) as [I | [F E]].
    + rewrite (@each_result_in_bounds r s I). cbn [outcome_of state_of log_of].
      split; [ exact A | split ].
      * intro Fa. inversion Fa as [|? ? _ Fr]; subst.
        destruct (B Fr) as [Bl Bo]. now rewrite Bl, Bo.
      * intro O. constructor; [ exact I | now apply C ].
    + rewrite (@each_result_out_of_bounds r s F E).
      cbn [outcome_of state_of log_of]. split; [ reflexivity | split ].
      * intro Fa. inversion Fa as [|? ? Ir _]; subst.
        now destruct (Ir F).
      * discriminate.
Qed.

Lemma not_listening_state (d : payload) :
  state d <> Some "listening" ->
  match state d with
  | Some st => String.eqb st "listening"
  | None => false
  end = false.
Proof.
  destruct (state d) as [st|]; [ | reflexivity ].
  intro N. apply String.eqb_neq. congruence.
Qed.

Lemma onmessage_results (s : RS) (raw : string) (d : payload) (rs : list result) :
  JSON_parse raw = inr (JObject d) ->
  truthy (error d) = false ->
  state d <> Some "listening" ->
  results d = Some rs ->
  let r := onmessage JSON_parse (TextFrame raw) s in
  state_of r = s /\
  log_of r = Emit (Message (JObject d)) :: Emit (Results rs) ::
             log_of (forEach each_result rs s) /\
  outcome_of r = outcome_of (forEach each_result rs s).
Proof.
  intros P E St Rs. unfold onmessage.
  rewrite P, E, (@not_listening_state d St), Rs.
  unfold emit, bind. cbn.
  destruct (forEach_each_result rs s) as (A & _).
  rewrite A. repeat split.
Qed.


(** C10. On a frame that reaches the results branch, the guard before the
    read [result.alternatives[0].transcript] tests that the result is
    final and that [alternatives] is present, not that it has an element:
    on a final result with an empty array the read throws.  The handler
    returns exactly when every final result has a non-empty (or no)
    [alternatives]. *)
Theorem transcript_read_in_bounds
    (s : RS) (raw : string) (d : payload) (rs : list result) :
  JSON_parse raw = inr (JObject d) ->
  truthy (error d) = false ->
  state d <> Some "listening" ->
  results d = Some rs ->
  (outcome_of (onmessage JSON_parse (TextFrame raw) s) = Returned tt
   <-> Forall in_bounds rs) /\
  (forall r s',
      final r = true -> alternatives r = Some [] ->
      each_result r s' =
        Reply s' [Emit (Result r)]
          (Thrown (TypeError "Cannot read property 'transcript' of undefined"))).
Proof.
  intros P E St Rs. split.
  - destruct (onmessage_results s raw d rs P E St Rs) as (_ & _ & C).
    rewrite C. destruct (forEach_each_result rs s) as (_ & D & F).
    split; [ exact F | intro Fa; now destruct (D Fa) ].
  - intros r s'. apply each_result_out_of_bounds.
Qed.

(** *** Frames that are not JSON *)

(** C6. A text frame that [JSON.parse] rejects raises exactly one
    ['error'] event, which carries the raw frame, and changes nothing:
    the state is the one before, nothing is sent to or closed on the
    transport, and the rest of the session runs as it would have. *)
Theorem invalid_json_not_fatal (s : RS) (raw jsonEx : string) :
  JSON_parse raw = inl jsonEx ->
  let fr := TextFrame raw in
  let err := Emit (Error ("Invalid JSON received from service:" ++ " " ++ jsonEx)%string
                         (Some fr)) in
  onmessage JSON_parse fr s = Reply s [err] (Returned tt) /\
  count is_error_raised [err] = 1 /\
  count is_close [err] = 0 /\
  (socket s = true ->
   forall rest,
     run s (OnMessage fr :: rest) = (fst (run s rest), err :: snd (run s rest))).
Proof.
  intros P fr err.
  assert (O : onmessage JSON_parse fr s = Reply s [err] (Returned tt)).
  { unfold onmessage, fr. rewrite P. reflexivity. }
  split; [ exact O | split; [ reflexivity | split; [ reflexivity | ] ] ].
  intros K rest. cbn [run handle]. rewrite (callback_on _ _ K), O. reflexivity.
Qed.

(** *** The stop message and the connection *)

(** C7, where the code departs from it.  A first [finish] made after the
    first write and before the transport reports open is not deferred: the
    stop message goes to the socket at once, ahead of the opening message,
    and nothing is left to send on ['connect']. *)
Theorem finish_before_open_sends_at_once (ct : option string) (c : chunk) :
  trace ct [Write c; FinishCall] = [SockNew; SockSend StopFrame] /\
  onceConnect (final_state ct [Write c; FinishCall]) = 0 /\
  exists m,
    trace ct [Write c; FinishCall; OnOpen] =
    [SockNew; SockSend StopFrame; SockSend (Start m); Emit Connect].
Proof.
  unfold trace, final_state, RecognizeStream.trace, RecognizeStream.final_state.
  cbn [RecognizeStream.run RecognizeStream.handle]. cbn zeta.
  rewrite (write_reply c (create ct) eq_refl).
  cbn [initialized create]. cbn zeta. rewrite initialize_reply.
  destruct (truthy (option_content_type (create ct))); cbn;
    repeat split; eexists; reflexivity.
Qed.

End Parse.

(** *** The theorems on sample sessions *)

Lemma no_audio_before_listening_witness :
  In (Emit Listening)
     [SockNew; SockSend (Start {| content_type := Some "audio/wav" |});
      Emit Connect; Emit (Message (JObject listening_payload)); Emit Listening] /\
  log_of (_write sample_type None riff (create None)) = [SockNew] /\
  onceListening (state_of (_write sample_type None riff (create None))) = [riff] /\
  count is_audio (trace sample_parse sample_type None None [Write riff; OnOpen]) = 0 /\
  log_of (handle sample_parse sample_type None (OnMessage listening_frame) opened) =
    [Emit (Message (JObject listening_payload)); Emit Listening;
     SockSend (Audio riff); AfterSend] /\
  is_listening_report sample_parse (OnMessage listening_frame) = true.
Proof.
  destruct (no_audio_before_listening sample_parse sample_type None None
              [Write riff; OnOpen; OnMessage listening_frame])
    as (A & B & _ & D & E & F).
  split; [ | split; [ | split; [ | split; [ | split ] ] ] ].
  - apply (A _ riff [AfterSend]). reflexivity.
  - destruct (B (create None) riff eq_refl) as (B1 & _). exact B1.
  - destruct (B (create None) riff eq_refl) as (_ & B2 & _). exact B2.
  - destruct (D [Write riff; OnOpen] [OnMessage listening_frame]
                eq_refl eq_refl) as (_ & D2 & _).
    exact D2.
  - destruct (F opened "listening" listening_payload
                eq_refl eq_refl eq_refl eq_refl eq_refl) as (F1 & _).
    exact F1.
  - destruct (E opened (OnMessage listening_frame)) as (E1 & _).
    + cbn. right. left. reflexivity.
    + exact E1.
Defined.

Lemma stop_sent_at_most_once_witness :
  count is_stop
    (trace sample_parse sample_type None None
       [StopCall false; Write riff; OnOpen; FinishCall; EndOfInput]) <= 1 /\
  finish (final_state sample_parse sample_type None None [StopCall false; Write riff]) =
  Reply (final_state sample_parse sample_type None None [StopCall false; Write riff])
        [] (Returned tt).
Proof.
  destruct (stop_sent_at_most_once sample_parse sample_type None None
              [StopCall false; Write riff; OnOpen; FinishCall; EndOfInput])
    as (A & _ & C).
  split; [ exact A | ]. apply C. reflexivity.
Defined.

Lemma opening_message_once_witness :
  count is_start (trace sample_parse sample_type None None [Write riff; FinishCall]) = 0 /\
  count is_start
    (trace sample_parse sample_type None None [StopCall false; Write riff; OnOpen]) = 1 /\
  exists post',
    [Emit Connect; SockSend StopFrame] = Emit Connect :: post'.
Proof.
  split; [ | split ].
  - destruct (opening_message_once sample_parse sample_type None None
                [Write riff; FinishCall]) as (_ & _ & B & _).
    apply B. intros [E|[E|[]]]; discriminate E.
  - destruct (opening_message_once sample_parse sample_type None None
                [StopCall false; Write riff; OnOpen]) as (_ & A & _).
    apply A. reflexivity.
  - destruct (opening_message_once sample_parse sample_type None None
                [StopCall false; Write riff; OnOpen]) as (_ & _ & _ & C).
    apply (C [Emit StopEvent; SockNew] {| content_type := Some "audio/wav" |}).
    reflexivity.
Defined.

Lemma listening_report_toggles_witness :
  listening (state_of (onmessage sample_parse listening_frame opened)) = true /\
  log_of (onmessage sample_parse listening_frame opened) =
    [Emit (Message (JObject listening_payload)); Emit Listening;
     SockSend (Audio riff); AfterSend].
Proof.
  destruct (listening_report_toggles sample_parse sample_type None None []) as (A & _).
  destruct (A opened "listening" listening_payload eq_refl eq_refl eq_refl eq_refl)
    as (_ & B).
  exact (B eq_refl).
Defined.

(** C4, as stated, fails.  In a session that ended gracefully (stop sent,
    second listening report received) a further listening report sets
    [listening] again, and the one after it ends the output and closes the
    transport a second time; and a second listening report clears the flag
    and ends the output although no stop message was sent. *)
Lemma listening_report_not_idempotent :
  (listening (final_state sample_parse sample_type None None graceful) = false /\
   count is_stop (trace sample_parse sample_type None None graceful) = 1 /\
   count is_end_of_output (trace sample_parse sample_type None None graceful) = 1) /\
  listening (final_state sample_parse sample_type None None graceful_again) = true /\
  count is_end_of_output (trace sample_parse sample_type None None graceful_twice) = 2 /\
  count is_close (trace sample_parse sample_type None None graceful_twice) = 2 /\
  (count is_stop (trace sample_parse sample_type None None unasked) = 0 /\
   listening (final_state sample_parse sample_type None None unasked) = false /\
   count is_end_of_output (trace sample_parse sample_type None None unasked) = 1).
Proof. vm_compute. repeat split. Qed.



Lemma transcript_read_in_bounds_witness :
  outcome_of (onmessage sample_parse (TextFrame "results") (create None)) =
  Returned tt.
Proof.
  refine (proj2 (proj1 (transcript_read_in_bounds sample_parse (create None)
                   "results"
                   {| error := None; state := None;
                      results := Some [interim; hello] |}
                   [interim; hello] eq_refl eq_refl _ eq_refl)) _).
  - discriminate.
  - repeat constructor; unfold in_bounds; cbn; discriminate.
Defined.

Lemma invalid_json_not_fatal_witness :
  onmessage sample_parse (TextFrame "{oops") (create None) =
  Reply (create None)
    [Emit (Error "Invalid JSON received from service: Unexpected token"
                 (Some (TextFrame "{oops")))]
    (Returned tt).
Proof.
  exact (proj1 (invalid_json_not_fatal sample_parse sample_type None (create None)
                  "{oops" "Unexpected token" eq_refl)).
Defined.

End AdapterProofs.

(** ** The event aggregator: proofs *)

Module AggregatorProofs.
Import ResultStream.

Lemma indexOf_None (x : string) (l : list string) :
  indexOf x l = None <-> ~ In x l.
Proof.
  induction l as [|y l IH]; cbn; [ tauto | ].
  destruct (String.eqb_spec y x) as [->|N].
  - split; [ discriminate | intro H; exfalso; apply H; now left ].
  - destruct (indexOf x l) as [k|].
    + split; [ discriminate | ]. intro H. exfalso.
      assert (D : Some k = None) by (apply IH; tauto). discriminate D.
    + split; [ | reflexivity ]. intros _ [E|I]; [ congruence | ].
      now apply IH in I.
Qed.

Lemma forEach_source_on (A : Type) (g : A -> source * string)
    (l : list A) (s : RSt) :
  forEach (fun a => source_on (fst (g a)) (snd (g a))) l s =
  Reply (add_wires (map g l) s) [] (Returned tt).
Proof.
  revert s. induction l as [|a l IH]; intro s; cbn [forEach map].
  - destruct s. unfold ret, add_wires. cbn. now rewrite app_nil_r.
  - unfold bind. cbn [source_on modify outcome_of state_of log_of].
    rewrite IH. cbn. unfold add_wires. cbn. rewrite <- app_assoc.
    cbn. destruct (g a). reflexivity.
Qed.

Lemma source_emit_log (src : source) (eventName : string) (s : RSt) :
  source_emit src eventName s =
  Reply s (repeat (Emit eventName) (subscriptions src eventName s)) (Returned tt).
Proof.
  unfold source_emit, subscriptions, count, bind. cbn.
  induction (filter (wired src eventName) (wires s)) as [|w l IH]; cbn.
  - reflexivity.
  - unfold bind. cbn. injection IH as E1 E2 E3. now rewrite E1, E2, E3.
Qed.

Lemma subscriptions_pos (src : source) (eventName : string) (s : RSt) :
  0 < subscriptions src eventName s <-> In (src, eventName) (wires s).
Proof.
  unfold subscriptions, count.
  induction (wires s) as [|[a n] l IH]; cbn; [ split; [ lia | tauto ] | ].
  unfold wired at 1. cbn.
  destruct (Nat.eqb_spec a src) as [->|Na]; cbn.
  - destruct (String.eqb_spec n eventName) as [->|Nn]; cbn.
    + split; [ now left | lia ].
    + rewrite IH. split; [ now right | intros [E|I]; [ congruence | exact I ] ].
  - rewrite IH. split; [ now right | intros [E|I]; [ congruence | exact I ] ].
Qed.

(** What each method leaves behind. *)
Lemma propagateErrorsFrom_state (src : source) (s : RSt) :
  state_of (propagateErrorsFrom src s) =
  match indexOf "error" (propagatedEvents s) with
  | Some _ => add_wires [(src, "error")] (push_errorSources src s)
  | None => push_errorSources src s
  end.
Proof.
  unfold propagateErrorsFrom, bind. cbn.
  destruct (indexOf "error" (propagatedEvents s)); reflexivity.
Qed.

Lemma propagateEventsFrom_state (src : source) (s : RSt) :
  state_of (propagateEventsFrom src s) =
  add_wires (map (fun eventName => (src, eventName)) (propagatedEvents s))
            (push_allEventSources src s).
Proof.
  unfold propagateEventsFrom, bind. cbn.
  pose proof (forEach_source_on _ (fun eventName => (src, eventName))
                (propagatedEvents s) (push_allEventSources src s)) as E.
  cbn in E. now rewrite E.
Qed.

Lemma propagateEvent_state (eventName : string) (s : RSt) :
  state_of (propagateEvent eventName s) =
  if String.eqb eventName "data" || String.eqb eventName "end" then s
  else match indexOf eventName (propagatedEvents s) with
       | Some _ => s
       | None =>
           add_wires
             (map (fun src => (src, eventName))
                  (if String.eqb eventName "error"
                   then errorSources s ++ allEventSources s
                   else allEventSources s))
             (push_propagatedEvents eventName
                (push_propagatedEvents eventName s))
       end.
Proof.
  unfold propagateEvent.
  destruct (String.eqb eventName "data" || String.eqb eventName "end");
    [ reflexivity | ].
  unfold bind. cbn.
  destruct (indexOf eventName (propagatedEvents s)); [ reflexivity | ]. cbn.
  match goal with
  | |- context [forEach _ ?l ?s1] =>
      pose proof (forEach_source_on _ (fun src => (src, eventName)) l s1) as E
  end.
  cbn in E. now rewrite E.
Qed.

(** The methods of the aggregator raise nothing themselves. *)
Lemma propagateEvent_log (eventName : string) (s : RSt) :
  log_of (propagateEvent eventName s) = [].
Proof.
  unfold propagateEvent.
  destruct (String.eqb eventName "data" || String.eqb eventName "end");
    [ reflexivity | ].
  unfold bind. cbn.
  destruct (indexOf eventName (propagatedEvents s)); [ reflexivity | ]. cbn.
  match goal with
  | |- context [forEach _ ?l ?s1] =>
      pose proof (forEach_source_on _ (fun src => (src, eventName)) l s1) as E
  end.
  cbn in E. now rewrite E.
Qed.

Lemma propagateEventsFrom_log (src : source) (s : RSt) :
  log_of (propagateEventsFrom src s) = [].
Proof.
  unfold propagateEventsFrom, bind. cbn.
  pose proof (forEach_source_on _ (fun eventName => (src, eventName))
                (propagatedEvents s) (push_allEventSources src s)) as E.
  cbn in E. now rewrite E.
Qed.

Lemma step_wiring (i : input) (s : RSt) :
  wiring_inv s ->
  let s' := state_of (handle i s) in
  wiring_inv s' /\
  (forall src, In src (errorSources s') <->
               In src (errorSources s) \/ i = PropagateErrorsFrom src) /\
  (In "error" (propagatedEvents s') <->
   In "error" (propagatedEvents s) \/ i = On "error").
Proof.
  intros [Ia Ib]. destruct i as [n | src | src | src n]; cbn [handle].
  - rewrite propagateEvent_state.
    destruct (String.eqb n "data" || String.eqb n "end") eqn:D.
    { repeat split; auto; try tauto.
      - intros [I|E]; [ tauto | discriminate ].
      - intros [I|E]; [ exact I | ]. injection E as ->. discriminate D. }
    destruct (indexOf n (propagatedEvents s)) eqn:X.
    { assert (In n (propagatedEvents s)).
      { destruct (in_dec string_dec n (propagatedEvents s)) as [I|N]; [ exact I | ].
        apply indexOf_None in N. congruence. }
      repeat split; auto; try tauto.
      - intros [I|E]; [ tauto | discriminate ].
      - intros [I|E]; [ exact I | ]. now injection E as ->. }
    apply indexOf_None in X. unfold wiring_inv. cbn.
    repeat split.
    + intros src I E. apply in_app_iff.
      destruct (String.eqb_spec n "error") as [->|Nn].
      * right. apply in_map_iff. exists src. split; [ reflexivity | ].
        apply in_app_iff. now left.
      * left. apply Ia; [ exact I | ].
        rewrite <- app_assoc in E. apply in_app_iff in E.
        destruct E as [E|[E|[E|[]]]]; congruence.
    + intros src m I. rewrite <- app_assoc. apply in_app_iff.
      apply in_app_iff in I. destruct I as [I|I]; [ left; eauto | right ].
      apply in_map_iff in I. destruct I as (x & E & _). injection E as _ <-.
      now left.
    + tauto.
    + intros [I|E]; [ exact I | discriminate ].
    + rewrite <- app_assoc. intro I. apply in_app_iff in I.
      destruct I as [I|[E|[E|[]]]]; [ now left | right; now subst | right; now subst ].
    + rewrite <- app_assoc. intros [I|E]; apply in_app_iff; [ now left | ].
      injection E as ->. right. now left.
  - rewrite propagateErrorsFrom_state.
    destruct (indexOf "error" (propagatedEvents s)) eqn:X; unfold wiring_inv; cbn.
    + repeat split.
      * intros x I _. apply in_app_iff. apply in_app_iff in I.
        destruct I as [I|[->|[]]]; [ left | right; now left ].
        apply Ia; [ exact I | ].
        destruct (in_dec string_dec "error" (propagatedEvents s)) as [J|N]; [ exact J | ].
        apply indexOf_None in N. congruence.
      * intros x m I. apply in_app_iff in I. destruct I as [I|[E|[]]]; [ eauto | ].
        injection E as _ <-.
        destruct (in_dec string_dec "error" (propagatedEvents s)) as [J|N]; [ exact J | ].
        apply indexOf_None in N. congruence.
      * intro I. apply in_app_iff in I. destruct I as [I|[->|[]]]; auto.
      * intros [I|E]; apply in_app_iff; [ now left | ]. injection E as ->.
        right. now left.
      * tauto.
      * intros [I|E]; [ exact I | discriminate ].
    + apply indexOf_None in X. repeat split.
      * intros x _ E. contradiction.
      * exact Ib.
      * intro I. apply in_app_iff in I. destruct I as [I|[->|[]]]; auto.
      * intros [I|E]; apply in_app_iff; [ now left | ]. injection E as ->.
        right. now left.
      * tauto.
      * intros [I|E]; [ exact I | discriminate ].
  - rewrite propagateEventsFrom_state. unfold wiring_inv. cbn. repeat split.
    + intros x I E. apply in_app_iff. left. now apply Ia.
    + intros x m I. apply in_app_iff in I. destruct I as [I|I]; [ eauto | ].
      apply in_map_iff in I. destruct I as (y & E & J). now injection E as _ <-.
    + tauto.
    + intros [I|E]; [ exact I | discriminate ].
    + tauto.
    + intros [I|E]; [ exact I | discriminate ].
  - rewrite source_emit_log. cbn. repeat split; auto; try tauto.
    + intros [I|E]; [ exact I | discriminate ].
    + intros [I|E]; [ exact I | discriminate ].
Qed.

Lemma run_wiring (ins : list input) (s : RSt) :
  wiring_inv s ->
  let s' := fst (run s ins) in
  wiring_inv s' /\
  (forall src, In src (errorSources s') <->
               In src (errorSources s) \/ In (PropagateErrorsFrom src) ins) /\
  (In "error" (propagatedEvents s') <->
   In "error" (propagatedEvents s) \/ In (On "error") ins).
Proof.
  revert s. induction ins as [|i ins IH]; intros s I; cbn.
  - repeat split; try tauto; apply I.
  - destruct (step_wiring i s I) as (I1 & E1 & P1).
    destruct (IH _ I1) as (I2 & E2 & P2).
    split; [ exact I2 | split ].
    + intro src. rewrite E2, E1. intuition congruence.
    + rewrite P2, P1. intuition congruence.
Qed.

Lemma run_snoc (ins : list input) (i : input) (s : RSt) :
  snd (run s (ins ++ [i])) =
  snd (run s ins) ++ log_of (handle i (fst (run s ins))).
Proof.
  revert s. induction ins as [|j ins IH]; intro s; cbn.
  - now rewrite app_nil_r.
  - now rewrite IH, app_assoc.
Qed.

(** C9. A source registered with [propagateErrorsFrom] has its ['error']
    events raised again on the aggregator exactly when an ['error'] listener
    has been attached to the aggregator, be it before the source was
    registered or after: an ['error'] of the source is then raised on the
    aggregator once for each forwarding listener, and there is such a
    listener exactly when ['error'] was listened for. *)
Theorem errors_forwarded_when_listened (ins : list input) (src : source) :
  In (PropagateErrorsFrom src) ins ->
  let s := final_state ins in
  trace (ins ++ [Raise src "error"]) =
    trace ins ++ repeat (Emit "error") (subscriptions src "error" s) /\
  (0 < subscriptions src "error" s <-> In (On "error") ins).
Proof.
  intros R s. split.
  - unfold trace. rewrite run_snoc. cbn [handle].
    now rewrite source_emit_log.
  - assert (I0 : wiring_inv create) by (split; intros; contradiction).
    destruct (run_wiring ins create I0) as ((Ia & Ib) & E & P).
    fold (final_state ins) in Ia, Ib, E, P. fold s in Ia, Ib, E, P.
    rewrite subscriptions_pos. split.
    + intro W. apply Ib in W. apply P in W. destruct W as [[]|W]. exact W.
    + intro L. apply Ia; [ apply E | apply P ]; now right.
Qed.

(** C8, where the code departs from it.  A listener for an event is attached
    to the aggregator, then one source is registered once with
    [propagateEventsFrom]: the event name was recorded twice, so the source
    gets two forwarding listeners, and one event of the source is raised
    twice on the aggregator. *)
Theorem late_source_wired_twice (src : source) (eventName : string) :
  (String.eqb eventName "data" || String.eqb eventName "end")%bool = false ->
  let ins := [On eventName; PropagateEventsFrom src] in
  propagatedEvents (final_state ins) = [eventName; eventName] /\
  subscriptions src eventName (final_state ins) = 2 /\
  trace (ins ++ [Raise src eventName]) = [Emit eventName; Emit eventName].
Proof.
  intros D ins.
  assert (F : final_state ins =
              {| errorSources := []; allEventSources := [src];
                 propagatedEvents := [eventName; eventName];
                 wires := [(src, eventName); (src, eventName)] |}).
  { unfold final_state, ins. cbn [run fst handle].
    rewrite propagateEventsFrom_state, propagateEvent_state, D. cbn.
    destruct (String.eqb eventName "error"); reflexivity. }
  assert (S2 : subscriptions src eventName (final_state ins) = 2).
  { rewrite F. unfold subscriptions, count, wired. cbn.
    now rewrite Nat.eqb_refl, String.eqb_refl. }
  split; [ now rewrite F | split; [ exact S2 | ] ].
  unfold trace. rewrite run_snoc. cbn [handle]. rewrite source_emit_log.
  fold (final_state ins). rewrite S2.
  unfold ins. cbn [run snd handle].
  now rewrite propagateEvent_log, propagateEventsFrom_log.
Qed.

Lemma errors_forwarded_when_listened_witness :
  trace [On "error"; PropagateErrorsFrom 7; Raise 7 "error"] = [Emit "error"] /\
  0 < subscriptions 7 "error" (final_state [On "error"; PropagateErrorsFrom 7]).
Proof.
  destruct (errors_forwarded_when_listened [On "error"; PropagateErrorsFrom 7] 7)
    as (A & B).
  - right. left. reflexivity.
  - split; [ exact A | ]. apply B. left. reflexivity.
Defined.

Lemma late_source_wired_twice_witness :
  subscriptions 0 "close" (final_state [On "close"; PropagateEventsFrom 0]) = 2 /\
  trace [On "close"; PropagateEventsFrom 0; Raise 0 "close"] =
  [Emit "close"; Emit "close"].
Proof.
  exact (proj2 (late_source_wired_twice 0 "close" eq_refl)).
Defined.

End AggregatorProofs.

(** ** The session adapter: further proofs *)

Module AdapterExtras.
Import RecognizeStream Session Conduct HandlerFacts AdapterProofs.

Section Parse.
Variable JSON_parse : string -> string + json.
Variable getContentType : chunk -> option string.
Variable old_content_type : option string.

Local Abbreviation handle := (handle JSON_parse getContentType old_content_type).
Local Abbreviation run := (run JSON_parse getContentType old_content_type).
Local Abbreviation trace := (trace JSON_parse getContentType old_content_type).
Local Abbreviation final_state :=
  (final_state JSON_parse getContentType old_content_type).
Local Abbreviation _write := (_write getContentType old_content_type).

(** *** Audio leaves in the order of the writes *)

Lemma audio_of_app (l1 l2 : list effect) :
  audio_of (l1 ++ l2) = audio_of l1 ++ audio_of l2.
Proof. unfold audio_of. apply flat_map_app. Qed.

Lemma audio_of_sends (cs : list chunk) : audio_of (audio_sends cs) = cs.
Proof.
  induction cs as [|c cs IH]; [ reflexivity | ].
  change (c :: audio_of (audio_sends cs) = c :: cs). now rewrite IH.
Qed.

Lemma drains_stepwise : stepwise drains.
Proof.
  split; unfold drains.
  - intros s K. repeat split; auto.
  - intros s l1 s1 l2 s2 H1 H2 K.
    destruct (H1 K) as (K1 & I1 & Q1 & L1).
    destruct (H2 K1) as (K2 & I2 & Q2 & L2).
    repeat split; auto; try congruence.
    + now rewrite audio_of_app, <- app_assoc, Q2.
    + intro L. destruct (L2 L) as [L'|E]; [ | now right ].
      destruct (L1 L') as [L''|E]; [ now left | right ].
      rewrite E in Q2. now destruct (app_eq_nil _ _ Q2).
Qed.

Ltac drains_leaf :=
  solve [ intros s K; unfold drains; cbn; repeat split; auto;
          rewrite ?K; cbn; auto; discriminate ].

Lemma emit_listening_drains : sat drains (emit Listening).
Proof.
  intros s K. unfold emit, bind. cbn.
  destruct (fire_onceListening_sends (onceListening s) s K) as (A & B & C).
  rewrite A, B. cbn [audio_of flat_map app].
  fold (audio_of (audio_sends (onceListening s))).
  rewrite audio_of_sends. destruct s as [l i f k o op ol oc onf]. cbn in *.
  rewrite skipn_all, app_nil_r. repeat split; auto.
Qed.

Lemma raise_listening_drains :
  sat drains (modify (set_listening true) ;; emit Listening).
Proof.
  intros s K. unfold bind at 1. cbn [modify outcome_of state_of log_of app].
  destruct (emit_listening_drains (set_listening true s) K) as (K1 & I1 & Q1 & L1).
  repeat split; auto. intros _. right.
  unfold emit, bind. cbn.
  destruct (fire_onceListening_sends (onceListening s) (set_listening true s) K)
    as (_ & B & _).
  cbn in B. rewrite B. destruct s; cbn. apply skipn_all.
Qed.

Lemma emit_drains (e : event) : sat drains (emit e).
Proof.
  destruct e; try apply emit_listening_drains;
    unfold emit, fire_onceConnect; unfold_handlers;
    sat_split drains_stepwise drains_leaf.
Qed.

Lemma socket_send_drains (f : outframe) :
  match f with Audio _ => False | _ => True end ->
  sat drains (socket_send f).
Proof.
  intros F s K. unfold socket_send, bind. cbn. rewrite K.
  destruct f; try contradiction; cbn; repeat split; auto.
Qed.

Lemma callback_drains (h : H unit) (i : input) :
  handle i = callback h -> sat drains h -> sat drains (handle i).
Proof.
  intros -> Hh s K. rewrite (callback_on _ _ K). now apply Hh.
Qed.

Lemma onmessage_drains (fr : frame) : sat drains (onmessage JSON_parse fr).
Proof.
  unfold onmessage, emitError, each_result, socket_close.
  sat_split drains_stepwise
    ltac:(first [ apply raise_listening_drains
                | apply emit_drains
                | drains_leaf ]).
Qed.

Lemma onopen_drains : sat drains onopen.
Proof.
  unfold onopen.
  sat_split drains_stepwise
    ltac:(first [ apply socket_send_drains; exact I
                | apply emit_drains
                | drains_leaf ]).
Qed.

Lemma onerror_drains (err : string) : sat drains (onerror err).
Proof.
  unfold onerror.
  sat_split drains_stepwise ltac:(first [ apply emit_drains | drains_leaf ]).
Qed.

Lemma onclose_drains (code : nat) (reason : string) :
  sat drains (onclose code reason).
Proof.
  unfold onclose.
  sat_split drains_stepwise ltac:(first [ apply emit_drains | drains_leaf ]).
Qed.

Lemma same_queue_stepwise : stepwise same_queue.
Proof.
  split; unfold same_queue.
  - now intros.
  - intros s l1 s1 l2 s2 [A1 Q1] [A2 Q2]. rewrite audio_of_app, A1, A2.
    split; [ reflexivity | congruence ].
Qed.

Lemma handle_same_queue (i : input) :
  match i with
  | EndOfInput | StopCall _ | FinishCall => True
  | _ => False
  end ->
  sat same_queue (handle i).
Proof.
  destruct i; try contradiction; intros _;
    unfold_handlers; unfold finish, emit, fire_onceConnect; unfold_handlers;
    sat_split same_queue_stepwise
      ltac:(solve [ intro s; unfold same_queue; cbn; auto ]).
Qed.

Lemma write_order (c : chunk) (s : RS) :
  order_inv s ->
  let r := _write c s in
  order_inv (state_of r) /\
  audio_of (log_of r) ++ onceListening (state_of r) = onceListening s ++ [c].
Proof.
  destruct s as [l i f k o op ol oc onf]. unfold order_inv, socket_inv.
  cbn [socket initialized listening onceListening]. intros [[E L] Q]. subst i.
  destruct l.
  - rewrite (L eq_refl), (Q eq_refl). cbn. repeat split; auto.
  - rewrite (write_reply getContentType old_content_type c) by reflexivity.
    destruct k; cbn zeta; [ | rewrite initialize_reply ];
      cbn [initialized option_content_type];
      try destruct (truthy o); cbn; repeat split; auto; discriminate.
Qed.

Lemma order_step (i : input) (s : RS) :
  order_inv s ->
  let r := handle i s in
  order_inv (state_of r) /\
  audio_of (log_of r) ++ onceListening (state_of r) =
  onceListening s ++ written [i].
Proof.
  intros J.
  assert (U : match i with
              | EndOfInput | StopCall _ | FinishCall => True
              | _ => False
              end ->
              order_inv (state_of (handle i s)) /\
              audio_of (log_of (handle i s)) ++ onceListening (state_of (handle i s)) =
              onceListening s ++ written [i]).
  { intro T.
    assert (W : is_write i = false) by (destruct i; try contradiction; reflexivity).
    destruct (handle_same_queue i T s) as [A Q].
    destruct (handle_same_conn JSON_parse getContentType old_content_type i W s) as [K I].
    assert (L : listening (state_of (handle i s)) = listening s).
    { apply (handle_same_listening JSON_parse getContentType old_content_type i).
      destruct i; try contradiction; exact Logic.I. }
    destruct J as [[E Ls] Qs]. unfold order_inv, socket_inv.
    rewrite A, Q, K, I, L.
    destruct i; try contradiction; cbn; rewrite app_nil_r; repeat split; auto. }
  assert (C : forall h, handle i = callback h -> sat drains h -> written [i] = [] ->
              order_inv (state_of (handle i s)) /\
              audio_of (log_of (handle i s)) ++ onceListening (state_of (handle i s)) =
              onceListening s ++ written [i]).
  { intros h Eh Hh Wr. rewrite Wr, app_nil_r. destruct (socket s) eqn:K.
    - destruct (callback_drains h i Eh Hh s K) as (K1 & I1 & Q1 & L1).
      destruct J as [[E Ls] Qs]. unfold order_inv, socket_inv.
      repeat split; auto; try congruence.
      intro L. destruct (L1 L) as [L'|Z]; [ | exact Z ].
      rewrite (Qs L') in Q1. now destruct (app_eq_nil _ _ Q1).
    - rewrite Eh, (callback_off _ _ K). cbn. split; [ exact J | reflexivity ]. }
  destruct i; cbn [handle] in *.
  - now apply write_order.
  - now apply U.
  - now apply U.
  - now apply U.
  - apply (C onopen); try reflexivity. apply onopen_drains.
  - apply (C (onerror err)); try reflexivity. apply onerror_drains.
  - apply (C (onclose code reason)); try reflexivity. apply onclose_drains.
  - apply (C (onmessage JSON_parse fr)); try reflexivity. apply onmessage_drains.
Qed.

Lemma run_order (ins : list input) (s : RS) :
  order_inv s ->
  order_inv (fst (run s ins)) /\
  audio_of (snd (run s ins)) ++ onceListening (fst (run s ins)) =
  onceListening s ++ written ins.
Proof.
  revert s. induction ins as [|i ins IH]; intros s J.
  - cbn. rewrite app_nil_r. now split.
  - destruct (order_step i s J) as [J1 Q1].
    destruct (IH _ J1) as [J2 Q2].
    cbn [run fst snd]. split; [ exact J2 | ].
    rewrite audio_of_app, <- app_assoc, Q2, app_assoc, Q1, <- app_assoc.
    f_equal. unfold written. cbn. now rewrite app_nil_r.
Qed.

(** X1. In every session the audio chunks handed to the transport, followed
    by the chunks still deferred, are the chunks written, in the order of
    the writes: no chunk is dropped, sent twice or overtaken.  And while the
    adapter listens no chunk is deferred. *)
Theorem audio_in_write_order (ct : option string) (ins : list input) :
  audio_of (trace ct ins) ++ onceListening (final_state ct ins) = written ins /\
  (listening (final_state ct ins) = true ->
   audio_of (trace ct ins) = written ins).
Proof.
  assert (J : order_inv (create ct)).
  { repeat split; try reflexivity; discriminate. }
  destruct (run_order ins (create ct) J) as [[_ Q] E].
  cbn in E. split; [ exact E | ].
  intro L. unfold final_state, RecognizeStream.final_state in *.
  rewrite (Q L), app_nil_r in E. exact E.
Qed.

(** *** The stop message is sent when it is due *)

Lemma stop_exact_stepwise : stepwise stop_exact.
Proof.
  split; unfold stop_exact.
  - intro s. cbn. lia.
  - intros s l1 s1 l2 s2 A B. rewrite count_app. lia.
Qed.

Lemma finish_exact : sat stop_exact finish.
Proof.
  intros [l i f k ct o ol oc onf]. unfold stop_exact, stop_potential.
  destruct f, k; cbn; lia.
Qed.

Ltac exact_leaf :=
  solve [ intro s; unfold stop_exact, stop_potential; cbn; lia ].

Lemma fire_onceConnect_exact (n : nat) (s : RS) :
  socket s = true -> n <= onceConnect s ->
  let r := forEach fire_onceConnect (repeat tt n) s in
  log_of r = repeat (SockSend StopFrame) n /\
  state_of r = set_onceConnect (onceConnect s - n) s /\
  outcome_of r = Returned tt.
Proof.
  revert s. induction n as [|n IH]; intros s K Hn.
  - destruct s; cbn. rewrite Nat.sub_0_r. repeat split.
  - cbv zeta. cbn [repeat forEach]. unfold bind.
    assert (F : fire_onceConnect tt s =
                Reply (set_onceConnect (pred (onceConnect s)) s)
                      [SockSend StopFrame] (Returned tt)).
    { destruct s as [l i f k o op ol oc onf]. cbn in K. subst k. reflexivity. }
    rewrite F. cbn [outcome_of state_of log_of].
    destruct (IH (set_onceConnect (pred (onceConnect s)) s)) as (A & B & C).
    { destruct s; exact K. }
    { destruct s; cbn in *; lia. }
    rewrite A, B, C. clear F IH A B C. repeat split.
    destruct s as [l i f k o op ol oc onf]. cbn in *.
    unfold set_onceConnect. cbn. f_equal. lia.
Qed.

Lemma onopen_state (s : RS) :
  socket s = true ->
  state_of (onopen s) =
  state_of (forEach fire_onceConnect (repeat tt (onceConnect s)) s).
Proof.
  intro K. unfold onopen, socket_send, emit, bind. cbn. rewrite K. reflexivity.
Qed.

Lemma count_repeat_stop (n : nat) :
  count is_stop (repeat (SockSend StopFrame) n) = n.
Proof.
  induction n as [|n IH]; [ reflexivity | ].
  cbn [repeat]. rewrite count_cons. cbn. now rewrite IH.
Qed.

Lemma onopen_exact (s : RS) :
  socket s = true -> stop_exact s (log_of (onopen s)) (state_of (onopen s)).
Proof.
  intro K. unfold stop_exact. rewrite (onopen_log s K), (onopen_state s K).
  destruct (fire_onceConnect_exact (onceConnect s) s K (le_n _)) as (A & B & _).
  rewrite A, B, !count_cons, count_repeat_stop. cbn [is_stop].
  destruct s as [l i f k o op ol oc onf]. unfold stop_potential. cbn. lia.
Qed.

Lemma handle_exact (i : input) : sat stop_exact (handle i).
Proof.
  destruct i.
  5: { intro s. cbn [RecognizeStream.handle]. destruct (socket s) eqn:K.
       - rewrite (callback_on _ _ K). now apply onopen_exact.
       - rewrite (callback_off _ _ K). apply (stepwise_refl stop_exact_stepwise). }
  all: unfold RecognizeStream.handle, callback, _write, initialize, stop,
         onclose, onerror, onmessage, emitError, each_result, emit,
         fire_onceListening, socket_send, socket_close, afterSend;
    sat_split stop_exact_stepwise
      ltac:(first [ apply finish_exact | exact_leaf ]).
Qed.

(** X2. In every session the stop messages sent and those the final state
    can still cause add up to one: a stop message is still deferred to
    ['connect'], or none was asked for, or exactly one was sent.  So once
    [finished] is set and nothing is deferred, the stop message has been
    sent exactly once; and while [finished] is unset, none has. *)
Theorem stop_sent_when_due (ct : option string) (ins : list input) :
  count is_stop (trace ct ins) + stop_potential (final_state ct ins) = 1 /\
  (finished (final_state ct ins) = true ->
   onceConnect (final_state ct ins) = 0 ->
   count is_stop (trace ct ins) = 1) /\
  (finished (final_state ct ins) = false ->
   count is_stop (trace ct ins) = 0).
Proof.
  pose proof (run_sat JSON_parse getContentType old_content_type stop_exact
                stop_exact_stepwise handle_exact ins (create ct)) as E.
  unfold stop_exact in E. cbn in E.
  unfold trace, final_state, RecognizeStream.trace,
    RecognizeStream.final_state in *.
  split; [ exact E | ].
  unfold stop_potential in E. split.
  - intros F P. rewrite F, P in E. lia.
  - intros F. rewrite F in E. lia.
Qed.

(** *** Hard stops *)

Lemma same_finished_stepwise : stepwise same_finished.
Proof. split; unfold same_finished; intros; congruence. Qed.

Lemma handle_same_finished (i : input) :
  is_graceful i = false -> sat same_finished (handle i).
Proof.
  destruct i as [c| |[|]| | | | |]; try discriminate; intros _;
    unfold RecognizeStream.handle, callback, _write, initialize, stop,
      onopen, onclose, onerror, onmessage, emitError, each_result, emit,
      fire_onceListening, fire_onceConnect, socket_send, socket_close,
      afterSend;
    sat_split same_finished_stepwise
      ltac:(solve [ intro s; unfold same_finished; cbn; auto ]).
Qed.

Lemma run_same_finished (ins : list input) (s : RS) :
  forallb (fun i => negb (is_graceful i)) ins = true ->
  finished (fst (run s ins)) = finished s.
Proof.
  revert s. induction ins as [|i ins IH]; intros s G; [ reflexivity | ].
  cbn in G. apply andb_prop in G. destruct G as [Gi G].
  cbn [run fst]. rewrite (IH _ G).
  apply handle_same_finished. now destruct (is_graceful i).
Qed.

(** X3. A hard stop raises ['stop'] and closes the transport: it sends no
    stop message and leaves the state, [finished] included, as it is; made
    before the first write, when there is no socket yet, it throws after
    raising ['stop'].  A session without a graceful request (end of input,
    finish, stop that is not hard) never sends the stop message. *)
Theorem hard_stop_sends_no_stop (ct : option string) (ins : list input) :
  (forall s, socket s = true ->
     stop true s = Reply s [Emit StopEvent; SockClose] (Returned tt)) /\
  (forall s, socket s = false ->
     stop true s =
     Reply s [Emit StopEvent]
       (Thrown (TypeError "Cannot read property 'close' of undefined"))) /\
  (forallb (fun i => negb (is_graceful i)) ins = true ->
   finished (final_state ct ins) = false /\
   count is_stop (trace ct ins) = 0).
Proof.
  split; [ | split ].
  - intros s K. unfold stop, emit, socket_close, bind. cbn. now rewrite K.
  - intros s K. unfold stop, emit, socket_close, bind. cbn. now rewrite K.
  - intro G.
    assert (F : finished (final_state ct ins) = false)
      by apply (run_same_finished ins (create ct) G).
    split; [ exact F | ].
    pose proof (run_sat JSON_parse getContentType old_content_type stop_exact
                  stop_exact_stepwise handle_exact ins (create ct)) as E.
    unfold stop_exact, stop_potential in E. cbn in E.
    unfold trace, final_state, RecognizeStream.trace,
      RecognizeStream.final_state in *.
    rewrite F in E. lia.
Qed.

(** *** The socket is created by the first write *)

Lemma no_new_stepwise : stepwise no_new.
Proof.
  split; unfold no_new.
  - reflexivity.
  - intros s l1 s1 l2 s2 A B. rewrite count_app. lia.
Qed.

Lemma handle_no_new (i : input) :
  is_write i = false -> sat no_new (handle i).
Proof.
  destruct i; try discriminate; intros _; unfold_handlers;
    unfold finish, emit, fire_onceConnect; unfold_handlers;
    sat_split no_new_stepwise ltac:(solve [ intro s; reflexivity ]).
Qed.

Lemma write_new (c : chunk) (s : RS) :
  socket_inv s ->
  count is_new (log_of (_write c s)) = b2n (negb (socket s)).
Proof.
  destruct s as [l i f k o op ol oc onf]. unfold socket_inv.
  cbn [socket initialized listening]. intros [E L]. subst i.
  destruct l; [ rewrite (L eq_refl); reflexivity | ].
  rewrite (write_reply getContentType old_content_type c) by reflexivity.
  destruct k; reflexivity.
Qed.

Lemma run_new (ins : list input) (s : RS) :
  socket_inv s ->
  count is_new (snd (run s ins)) =
  if socket s then 0 else b2n (existsb is_write ins).
Proof.
  revert s. induction ins as [|i ins IH]; intros s I.
  - cbn. now destruct (socket s).
  - destruct (conn_step JSON_parse getContentType old_content_type i s I) as (I' & K & _).
    cbn [run snd existsb]. rewrite count_app, (IH _ I'), K.
    destruct (is_write i) eqn:W.
    + destruct i; try discriminate W. cbn [RecognizeStream.handle].
      rewrite (write_new c s I), orb_true_r. cbn.
      destruct (socket s); reflexivity.
    + rewrite (handle_no_new i W s), orb_false_r. cbn.
      now destruct (socket s).
Qed.

Lemma offline_stepwise : stepwise offline.
Proof.
  split; unfold offline.
  - intros s K. now split.
  - intros s l1 s1 l2 s2 H1 H2 K. destruct (H1 K) as [K1 T1].
    destruct (H2 K1) as [K2 T2]. split; [ exact K2 | ].
    rewrite count_app. lia.
Qed.

Lemma socket_send_offline (f : outframe) : sat offline (socket_send f).
Proof.
  intros s K. unfold socket_send, bind. cbn. rewrite K. now split.
Qed.

Lemma socket_close_offline : sat offline socket_close.
Proof.
  intros s K. unfold socket_close, bind. cbn. rewrite K. now split.
Qed.

Lemma handle_offline (i : input) :
  is_write i = false -> sat offline (handle i).
Proof.
  intro W.
  assert (C : forall h, handle i = callback h -> sat offline (handle i)).
  { intros h -> s K. rewrite (callback_off _ _ K). now split. }
  destruct i; try discriminate W; try (eapply C; reflexivity);
    unfold RecognizeStream.handle, stop, finish, emit, fire_onceListening,
      fire_onceConnect, afterSend;
    sat_split offline_stepwise
      ltac:(first [ apply socket_send_offline
                  | apply socket_close_offline
                  | solve [ intros s K; unfold offline; cbn; auto ] ]).
Qed.

Lemma run_offline (ins : list input) (s : RS) :
  existsb is_write ins = false -> socket s = false ->
  socket (fst (run s ins)) = false /\ count is_transport (snd (run s ins)) = 0.
Proof.
  revert s. induction ins as [|i ins IH]; intros s W K; [ now split | ].
  cbn in W. apply orb_false_elim in W. destruct W as [Wi W].
  destruct (handle_offline i Wi s K) as [K1 T1].
  destruct (IH _ W K1) as [K2 T2].
  cbn [run fst snd]. split; [ exact K2 | ]. rewrite count_app. lia.
Qed.

(** X4. In every session the socket is created exactly once if a chunk is
    written, by the first write, and not at all otherwise; until the first
    write nothing is created, sent or closed on a transport, whatever is
    called. *)
Theorem socket_created_by_first_write (ct : option string) (ins : list input) :
  count is_new (trace ct ins) = b2n (existsb is_write ins) /\
  (existsb is_write ins = false -> count is_transport (trace ct ins) = 0).
Proof.
  assert (I : socket_inv (create ct)) by (split; [ reflexivity | discriminate ]).
  split.
  - apply (run_new ins (create ct) I).
  - intro W. now apply (run_offline ins (create ct) W).
Qed.

(** *** The content type of the opening message *)

Lemma same_opening_stepwise : stepwise same_opening.
Proof.
  split; unfold same_opening.
  - now intros.
  - intros s l1 s1 l2 s2 [A B] [C D]. split; congruence.
Qed.

Lemma handle_same_opening (i : input) :
  is_write i = false -> sat same_opening (handle i).
Proof.
  destruct i; try discriminate; intros _; unfold_handlers;
    unfold finish, emit, fire_onceConnect; unfold_handlers;
    sat_split same_opening_stepwise
      ltac:(solve [ intro s; unfold same_opening; cbn; auto ]).
Qed.

Lemma no_start_In (l : list effect) (m : openingMessage) :
  count is_start l = 0 -> ~ In (SockSend (Start m)) l.
Proof.
  intros Z I. apply in_split in I. destruct I as (pre & post & ->).
  rewrite count_app, count_cons in Z. cbn in Z. lia.
Qed.

(** What is sent as opening message is the one of the state. *)
Lemma handle_starts (i : input) (s : RS) (m : openingMessage) :
  is_write i = false ->
  In (SockSend (Start m)) (log_of (handle i s)) ->
  socket s = true /\ m = opening s.
Proof.
  intros W I. destruct (is_open i) eqn:O.
  - destruct i; try discriminate O. cbn [RecognizeStream.handle] in I.
    destruct (socket s) eqn:K.
    + split; [ reflexivity | ].
      rewrite (callback_on _ _ K), (onopen_log s K) in I.
      destruct I as [E|[E|I]]; [ now injection E | discriminate E | ].
      exfalso. revert I. apply no_start_In.
      apply fire_onceConnect_no_start.
    + rewrite (callback_off _ _ K) in I. contradiction.
  - exfalso. revert I. apply no_start_In.
    apply (handle_no_start JSON_parse getContentType old_content_type i O s).
Qed.

Lemma write_opening (c : chunk) (s : RS) :
  socket_inv s ->
  let r := _write c s in
  count is_start (log_of r) = 0 /\
  initialized (state_of r) = true /\
  opening (state_of r) =
    (if initialized s then opening s
     else {| content_type :=
               let found :=
                 if truthy (option_content_type s) then option_content_type s
                 else getContentType c in
               if truthy old_content_type && negb (truthy found)
               then old_content_type else found |}).
Proof.
  destruct s as [l i f k o op ol oc onf]. unfold socket_inv.
  cbn [socket initialized listening option_content_type opening].
  intros [E L]. subst i.
  destruct l; [ rewrite (L eq_refl); cbn; auto | ].
  rewrite (write_reply getContentType old_content_type c) by reflexivity.
  destruct k; cbn zeta; [ cbn; auto | rewrite initialize_reply ].
  cbn [initialized option_content_type].
  destruct (truthy o); cbn; auto.
Qed.

Lemma run_opening_set (ins : list input) (s : RS) (m : openingMessage) :
  socket_inv s -> initialized s = true ->
  In (SockSend (Start m)) (snd (run s ins)) -> m = opening s.
Proof.
  revert s. induction ins as [|i ins IH]; intros s I T H; [ contradiction | ].
  cbn [run snd] in H. apply in_app_iff in H.
  destruct (conn_step JSON_parse getContentType old_content_type i s I) as (I' & _ & _).
  destruct (is_write i) eqn:W.
  - destruct i; try discriminate W. cbn [RecognizeStream.handle] in *.
    destruct (write_opening c s I) as (Z & T' & O). rewrite T in O.
    destruct H as [H|H]; [ exfalso; revert H; now apply no_start_In | ].
    rewrite <- O. now apply IH.
  - destruct (handle_same_opening i W s) as [O _].
    destruct (handle_same_conn JSON_parse getContentType old_content_type i W s) as [_ T'].
    destruct H as [H|H]; [ now apply (handle_starts i s m W) | ].
    rewrite <- O. apply IH; auto. congruence.
Qed.

Lemma run_opening_unset (ins : list input) (s : RS) (m : openingMessage) :
  socket_inv s -> initialized s = false ->
  In (SockSend (Start m)) (snd (run s ins)) ->
  exists c0 rest,
    written ins = c0 :: rest /\
    content_type m =
      let found :=
        if truthy (option_content_type s) then option_content_type s
        else getContentType c0 in
      if truthy old_content_type && negb (truthy found)
      then old_content_type else found.
Proof.
  revert s. induction ins as [|i ins IH]; intros s I T H; [ contradiction | ].
  cbn [run snd] in H. apply in_app_iff in H.
  destruct (conn_step JSON_parse getContentType old_content_type i s I) as (I' & K' & _).
  destruct (is_write i) eqn:W.
  - destruct i; try discriminate W. cbn [RecognizeStream.handle] in *.
    destruct (write_opening c s I) as (Z & T' & O). rewrite T in O.
    exists c, (written ins). split; [ reflexivity | ].
    destruct H as [H|H]; [ exfalso; revert H; now apply no_start_In | ].
    rewrite (run_opening_set ins _ m I' T' H), O. reflexivity.
  - destruct (handle_same_opening i W s) as [_ O].
    destruct (handle_same_conn JSON_parse getContentType old_content_type i W s) as [_ T'].
    destruct H as [H|H].
    + destruct (handle_starts i s m W H) as [K _].
      destruct I as [E _]. congruence.
    + destruct (IH _ I' (eq_trans T' T) H) as (c0 & rest & Wr & Ct).
      exists c0, rest. rewrite <- O. split; [ | exact Ct ].
      unfold written in *. cbn [flat_map].
      destruct i; try discriminate W; exact Wr.
Qed.

(** *** Frames that are not results *)

(** X6. Protocol errors are not fatal.  A binary frame, a payload with an
    error field and a payload of no known shape each raise one ['error']
    event that carries the raw frame (after ['message'] for a decoded
    payload), and leave the state as it is, the transport untouched.  A
    frame that decodes to [null] raises ['message'] and then throws. *)
Theorem protocol_errors_not_fatal (s : RS) (raw : string) :
  (forall b,
     onmessage JSON_parse (BinaryFrame b) s =
     Reply s [Emit (Error "Unexpected binary data received from server"
                          (Some (BinaryFrame b)))] (Returned tt)) /\
  (forall d msg,
     JSON_parse raw = inr (JObject d) ->
     error d = Some msg -> msg <> EmptyString ->
     onmessage JSON_parse (TextFrame raw) s =
     Reply s [Emit (Message (JObject d));
              Emit (Error msg (Some (TextFrame raw)))] (Returned tt)) /\
  (forall d,
     JSON_parse raw = inr (JObject d) ->
     truthy (error d) = false -> state d <> Some "listening" ->
     results d = None ->
     onmessage JSON_parse (TextFrame raw) s =
     Reply s [Emit (Message (JObject d));
              Emit (Error "Unrecognised message from server"
                          (Some (TextFrame raw)))] (Returned tt)) /\
  (JSON_parse raw = inr JNull ->
   onmessage JSON_parse (TextFrame raw) s =
   Reply s [Emit (Message JNull)]
     (Thrown (TypeError "Cannot read property 'error' of null"))).
Proof.
  split; [ | split; [ | split ] ].
  - intro b. destruct s. reflexivity.
  - intros d msg P E N. unfold onmessage. rewrite P. unfold truthy.
    rewrite E. apply String.eqb_neq in N. rewrite N. destruct s. reflexivity.
  - intros d P E St Rs. unfold onmessage.
    rewrite P, E, (not_listening_state d St), Rs. destruct s. reflexivity.
  - intro P. unfold onmessage. rewrite P. destruct s. reflexivity.
Qed.

(** *** Transport errors and the end of output *)

(** X7. When the transport closes, the end of output is pushed exactly if
    the adapter is listening at that moment, then ['close'] is raised, and
    the adapter no longer listens.  A transport error clears [listening]
    without ending the output, so the close that follows an error raises
    ['close'] only: after an error the readable side is not ended. *)
Theorem close_ends_output_if_listening
    (s : RS) (err : string) (code : nat) (reason : string) :
  socket s = true ->
  snd (run s [OnClose code reason]) =
    (if listening s then [Push None] else []) ++ [Emit (Close code reason)] /\
  listening (fst (run s [OnClose code reason])) = false /\
  snd (run s [OnError err; OnClose code reason]) =
    [Emit (Error err None); Emit (Close code reason)].
Proof.
  intro K. destruct s as [l i f k o op ol oc onf]. cbn in K. subst k.
  destruct l; repeat split.
Qed.

End Parse.

(** X5. The content type of the opening message.  It is the one
    configured as ['content-type'] if that is truthy, and otherwise the one
    read off the first four bytes of the first chunk written; where neither
    gives a truthy value, the one configured under the old name
    [content_type] stands in if it is truthy.  Later writes do not change
    it, and no opening message is sent before a chunk was written. *)
Theorem opening_content_type
    (JSON_parse : string -> string + json)
    (contentType : string -> option string) (toString : list byte -> string)
    (old_content_type ct : option string)
    (ins : list input) (m : openingMessage) :
  In (SockSend (Start m))
     (trace JSON_parse (getContentType contentType toString)
        old_content_type ct ins) ->
  exists c0 rest,
    written ins = c0 :: rest /\
    content_type m =
      let found :=
        if truthy ct then ct else contentType (toString (firstn 4 c0)) in
      if truthy old_content_type && negb (truthy found)
      then old_content_type else found.
Proof.
  intro H.
  apply (run_opening_unset JSON_parse (getContentType contentType toString)
           old_content_type ins (create ct) m);
    try assumption; try reflexivity.
  split; [ reflexivity | discriminate ].
Qed.

Lemma opening_content_type_witness :
  (exists c0 rest,
     written [Write noise; OnOpen; Write riff] = c0 :: rest /\
     content_type {| content_type := Some "audio/l16" |} =
       let found :=
         if truthy None then None
         else sample_table (string_of_list_byte (firstn 4 c0)) in
       if truthy (Some "audio/l16") && negb (truthy found)
       then Some "audio/l16" else found) /\
  trace sample_parse (getContentType sample_table string_of_list_byte)
    (Some "audio/l16") None [Write riff; OnOpen] =
  [SockNew; SockSend (Start {| content_type := Some "audio/wav" |});
   Emit Connect].
Proof.
  split; [ | vm_compute; reflexivity ].
  apply (opening_content_type sample_parse sample_table string_of_list_byte
           (Some "audio/l16") None [Write noise; OnOpen; Write riff]
           {| content_type := Some "audio/l16" |}).
  vm_compute. right. left. reflexivity.
Defined.

Lemma protocol_errors_not_fatal_witness :
  onmessage sample_parse (TextFrame "both") (create None) =
  Reply (create None)
    [Emit (Message (JObject {| error := Some "boom"; state := None;
                               results := Some [hello] |}));
     Emit (Error "boom" (Some (TextFrame "both")))]
    (Returned tt).
Proof.
  refine (proj1 (proj2 (protocol_errors_not_fatal sample_parse (create None) "both"))
            {| error := Some "boom"; state := None; results := Some [hello] |}
            "boom" eq_refl eq_refl _).
  discriminate.
Defined.

Lemma close_ends_output_if_listening_witness :
  snd (run sample_parse sample_type None opened [OnError "reset"; OnClose 1006 "gone"]) =
  [Emit (Error "reset" None); Emit (Close 1006 "gone")].
Proof.
  exact (proj2 (proj2 (close_ends_output_if_listening sample_parse sample_type None
                         opened "reset" 1006 "gone" eq_refl))).
Defined.

Lemma hard_stop_sends_no_stop_witness :
  stop true (create None) =
    Reply (create None) [Emit StopEvent]
      (Thrown (TypeError "Cannot read property 'close' of undefined")) /\
  stop true opened = Reply opened [Emit StopEvent; SockClose] (Returned tt) /\
  count is_stop
    (trace sample_parse sample_type None None [Write riff; OnOpen; StopCall true]) = 0.
Proof.
  destruct (hard_stop_sends_no_stop sample_parse sample_type None None
              [Write riff; OnOpen; StopCall true]) as (A & B & C).
  split; [ | split ].
  - apply B. reflexivity.
  - apply A. reflexivity.
  - apply C. reflexivity.
Defined.

Lemma socket_created_by_first_write_witness :
  count is_transport
    (trace sample_parse sample_type None None [EndOfInput; StopCall false; OnOpen]) = 0.
Proof.
  refine (proj2 (socket_created_by_first_write sample_parse sample_type None None
            [EndOfInput; StopCall false; OnOpen]) _).
  reflexivity.
Defined.

Lemma stop_sent_when_due_witness :
  count is_stop
    (trace sample_parse sample_type None None [StopCall false; Write riff; OnOpen]) = 1 /\
  count is_stop
    (trace sample_parse sample_type None None [Write riff; OnOpen; StopCall true]) = 0.
Proof.
  split.
  - refine (proj1 (proj2 (stop_sent_when_due sample_parse sample_type None None
              [StopCall false; Write riff; OnOpen])) _ _); reflexivity.
  - refine (proj2 (proj2 (stop_sent_when_due sample_parse sample_type None None
              [Write riff; OnOpen; StopCall true])) _); reflexivity.
Defined.

Lemma audio_in_write_order_witness :
  audio_of (trace sample_parse sample_type None None
              [Write riff; OnOpen; OnMessage listening_frame; Write [x00]]) =
  [riff; [x00]].
Proof.
  refine (proj2 (audio_in_write_order sample_parse sample_type None None
            [Write riff; OnOpen; OnMessage listening_frame; Write [x00]]) _).
  reflexivity.
Defined.

End AdapterExtras.

(** ** The event aggregator: further proofs *)

Module AggregatorExtras.
Import ResultStream Registry HandlerFacts AggregatorProofs.

Lemma listed_In (n : string) (s : RSt) :
  listed n s = true <-> In n (propagatedEvents s).
Proof.
  unfold listed. destruct (indexOf n (propagatedEvents s)) eqn:X.
  - split; [ intros _ | reflexivity ].
    destruct (in_dec string_dec n (propagatedEvents s)) as [I|N]; [ exact I | ].
    apply indexOf_None in N. congruence.
  - apply indexOf_None in X. split; [ discriminate | contradiction ].
Qed.

Lemma handle_on_state (n : string) (s : RSt) :
  state_of (handle (On n) s) =
  if relayed n && negb (listed n s)
  then add_wires (map (fun src => (src, n)) (sources_for n s))
         (push_propagatedEvents n (push_propagatedEvents n s))
  else s.
Proof.
  cbn [handle]. rewrite propagateEvent_state. unfold relayed, listed, sources_for.
  destruct (String.eqb n "data" || String.eqb n "end"); [ reflexivity | ].
  cbn. destruct (indexOf n (propagatedEvents s)); reflexivity.
Qed.

(** X9. Attaching a listener for ['data'] or ['end'] wires nothing, and
    attaching a further listener for an event that was listened for wires
    nothing more: the second of two attachments for the same event leaves
    the aggregator as it is.  The first attachment for any other event
    lists the event and adds one forwarding listener on each source the
    event is taken from, in the order of the sources. *)
Theorem wiring_idempotent (n : string) (s : RSt) :
  (relayed n = false -> state_of (handle (On n) s) = s) /\
  (listed n s = true -> state_of (handle (On n) s) = s) /\
  state_of (handle (On n) (state_of (handle (On n) s))) =
    state_of (handle (On n) s) /\
  (relayed n = true -> listed n s = false ->
   wires (state_of (handle (On n) s)) =
     wires s ++ map (fun src => (src, n)) (sources_for n s) /\
   listed n (state_of (handle (On n) s)) = true).
Proof.
  assert (P : relayed n = true -> listed n s = false ->
              listed n (add_wires (map (fun src => (src, n)) (sources_for n s))
                          (push_propagatedEvents n (push_propagatedEvents n s)))
              = true).
  { intros _ _. apply listed_In. cbn. rewrite <- app_assoc. apply in_app_iff.
    right. now left. }
  split; [ | split; [ | split ] ].
  - intro R. now rewrite handle_on_state, R.
  - intro L. rewrite handle_on_state, L. now rewrite andb_false_r.
  - rewrite (handle_on_state n (state_of (handle (On n) s))).
    destruct (relayed n) eqn:R; [ | reflexivity ]. cbn [andb].
    assert (L : listed n (state_of (handle (On n) s)) = true).
    { rewrite handle_on_state, R. cbn [andb].
      destruct (listed n s) eqn:L; cbn [negb]; [ exact L | now apply P ]. }
    now rewrite L.
  - intros R L. rewrite handle_on_state, R, L. cbn [andb negb].
    split; [ reflexivity | now apply P ].
Qed.

Lemma wiring_idempotent_witness :
  state_of (handle (On "end") (final_state [PropagateEventsFrom 0; On "close"])) =
    final_state [PropagateEventsFrom 0; On "close"] /\
  final_state [PropagateEventsFrom 0; On "close"; On "close"] =
    final_state [PropagateEventsFrom 0; On "close"] /\
  wires (final_state [PropagateErrorsFrom 1; PropagateEventsFrom 0; On "error"]) =
    [(1, "error"); (0, "error")].
Proof.
  split; [ | split ].
  - exact (proj1 (wiring_idempotent "end"
                    (final_state [PropagateEventsFrom 0; On "close"])) eq_refl).
  - exact (proj1 (proj2 (proj2 (wiring_idempotent "close"
                                  (final_state [PropagateEventsFrom 0]))))).
  - exact (proj1 (proj2 (proj2 (proj2 (wiring_idempotent "error"
             (final_state [PropagateErrorsFrom 1; PropagateEventsFrom 0]))))
             eq_refl eq_refl)).
Defined.

(** *** Sources registered before the listeners *)

Lemma run_fst_app (ins1 ins2 : list input) (s : RSt) :
  fst (run s (ins1 ++ ins2)) = fst (run (fst (run s ins1)) ins2).
Proof.
  revert s. induction ins1 as [|i ins1 IH]; intro s; cbn; [ reflexivity | ].
  apply IH.
Qed.

Lemma subscriptions_add_wires (src : source) (n : string)
    (ws : list (source * string)) (s : RSt) :
  subscriptions src n (add_wires ws s) =
  subscriptions src n s + count (wired src n) ws.
Proof. unfold subscriptions. cbn. apply count_app. Qed.

Lemma count_wired_map (src : source) (n m : string) (l : list source) :
  count (wired src n) (map (fun x => (x, m)) l) =
  if String.eqb m n then occurrences src l else 0.
Proof.
  unfold occurrences. induction l as [|x l IH]; cbn [map].
  - now destruct (String.eqb m n).
  - rewrite !count_cons, IH. unfold wired. cbn [fst snd].
    rewrite (Nat.eqb_sym src x).
    destruct (String.eqb m n), (Nat.eqb x src); reflexivity.
Qed.

Lemma listed_pushed (n m : string) (s : RSt) :
  listed n (push_propagatedEvents m (push_propagatedEvents m s)) =
  (listed n s || String.eqb m n)%bool.
Proof.
  apply eq_true_iff_eq. rewrite orb_true_iff, !listed_In.
  cbn. rewrite <- app_assoc, in_app_iff. cbn.
  destruct (String.eqb_spec m n); intuition congruence.
Qed.

Lemma listen_step (r s : RSt) (m : string) :
  wired_once_each r s ->
  wired_once_each r (state_of (handle (On m) s)) /\
  forall n, listed n (state_of (handle (On m) s)) =
            (listed n s || (relayed n && String.eqb m n))%bool.
Proof.
  intros (E & A & W). rewrite handle_on_state.
  destruct (relayed m) eqn:R; cbn [andb].
  - destruct (listed m s) eqn:L; cbn [negb].
    + split; [ now repeat split | ]. intro n.
      destruct (String.eqb_spec m n) as [<-|N];
        [ rewrite L; reflexivity | now rewrite andb_false_r, orb_false_r ].
    + assert (Ls : forall n,
                 listed n (add_wires (map (fun src => (src, m)) (sources_for m s))
                             (push_propagatedEvents m (push_propagatedEvents m s))) =
                 (listed n s || String.eqb m n)%bool)
        by (intro n; apply (listed_pushed n m s)).
      split.
      * repeat split; try assumption. intros src n.
        rewrite subscriptions_add_wires, count_wired_map, Ls.
        change (subscriptions src n
                  (push_propagatedEvents m (push_propagatedEvents m s)))
          with (subscriptions src n s).
        rewrite W.
        assert (Sf : sources_for m s = sources_for m r)
          by (unfold sources_for; now rewrite E, A).
        rewrite Sf.
        destruct (String.eqb_spec m n) as [<-|N].
        -- rewrite L. reflexivity.
        -- rewrite orb_false_r. destruct (listed n s); lia.
      * intro n. rewrite Ls.
        destruct (String.eqb_spec m n) as [<-|N];
          [ now rewrite R | now rewrite andb_false_r ].
  - split; [ now repeat split | ]. intro n.
    destruct (String.eqb_spec m n) as [<-|N];
      [ now rewrite R, orb_false_r | now rewrite andb_false_r, orb_false_r ].
Qed.

Lemma run_listens (r : RSt) (listens : list input) (s : RSt) :
  forallb is_listen listens = true ->
  wired_once_each r s ->
  wired_once_each r (fst (run s listens)) /\
  forall n, listed n (fst (run s listens)) =
            (listed n s || (relayed n && existsb (is_on n) listens))%bool.
Proof.
  revert s. induction listens as [|i listens IH]; intros s F W.
  - split; [ exact W | ]. intro n. cbn. now rewrite andb_false_r, orb_false_r.
  - cbn in F. apply andb_prop in F. destruct F as [Fi F].
    destruct i as [m| | |]; try discriminate Fi.
    destruct (listen_step r s m W) as [W1 L1].
    destruct (IH _ F W1) as [W2 L2].
    cbn [run fst]. split; [ exact W2 | ]. intro n.
    rewrite L2, L1. cbn [existsb is_on].
    destruct (listed n s), (relayed n), (String.eqb m n),
      (existsb (is_on n) listens); reflexivity.
Qed.

Lemma run_regs (regs : list input) (s : RSt) :
  forallb is_registration regs = true ->
  propagatedEvents s = [] ->
  fst (run s regs) =
  {| errorSources := errorSources s ++ error_regs regs;
     allEventSources := allEventSources s ++ event_regs regs;
     propagatedEvents := []; wires := wires s |}.
Proof.
  revert s. induction regs as [|i regs IH]; intros s F P.
  - destruct s; cbn in *. now rewrite !app_nil_r, P.
  - cbn in F. apply andb_prop in F. destruct F as [Fi F].
    cbn [run fst]. destruct i as [|src|src|]; try discriminate Fi; cbn [handle].
    + rewrite propagateErrorsFrom_state, P. cbn [indexOf].
      rewrite IH; [ | exact F | exact P ]. cbn. now rewrite <- app_assoc.
    + rewrite propagateEventsFrom_state, P. cbn [map].
      rewrite IH; [ | exact F | exact P ]. cbn.
      now rewrite <- app_assoc, app_nil_r.
Qed.

(** X8. When the sources are registered before the listeners are attached,
    as the class asks, a source has for each event name that was listened
    for (other than ['data'] and ['end']) one forwarding listener for each
    time it was registered for that event, and none for other names: a
    source registered once raises each of its events once on the
    aggregator. *)
Theorem sources_first_wired_once
    (regs listens : list input) (src : source) (n : string) :
  forallb is_registration regs = true ->
  forallb is_listen listens = true ->
  subscriptions src n (final_state (regs ++ listens)) =
  if relayed n && existsb (is_on n) listens
  then occurrences src (sources_for n (registered regs))
  else 0.
Proof.
  intros Fr Fl. unfold final_state. rewrite run_fst_app.
  rewrite (run_regs regs create Fr eq_refl). cbn [errorSources allEventSources
    wires create app]. fold (registered regs).
  assert (W0 : wired_once_each (registered regs) (registered regs)).
  { repeat split. }
  destruct (run_listens (registered regs) listens (registered regs) Fl W0)
    as [(_ & _ & W) L].
  rewrite W, L. reflexivity.
Qed.

Lemma sources_first_wired_once_witness :
  subscriptions 0 "close"
    (final_state ([PropagateErrorsFrom 1; PropagateEventsFrom 0] ++
                  [On "close"; On "error"; On "close"])) = 1.
Proof.
  exact (sources_first_wired_once [PropagateErrorsFrom 1; PropagateEventsFrom 0]
           [On "close"; On "error"; On "close"] 0 "close" eq_refl eq_refl).
Defined.

(** *** What is forwarded, and from where *)

Lemma step_origin (i : input) (s : RSt) :
  wire_origin s ->
  wire_origin (state_of (handle i s)) /\
  (forall src, In src (allEventSources (state_of (handle i s))) ->
               In src (allEventSources s) \/ i = PropagateEventsFrom src).
Proof.
  intro O. destruct i as [n|src|src|src n].
  - rewrite handle_on_state.
    destruct (relayed n && negb (listed n s)); [ | split; [ exact O | auto ] ].
    split; [ | cbn; auto ].
    intros x m I. cbn in *. apply in_app_iff in I. destruct I as [I|I].
    + exact (O x m I).
    + apply in_map_iff in I. destruct I as (y & E & J). injection E as -> <-.
      unfold sources_for in J.
      destruct (String.eqb_spec n "error") as [->|N]; [ | now right ].
      apply in_app_iff in J. destruct J as [J|J]; [ left; now split | now right ].
  - cbn [handle]. rewrite propagateErrorsFrom_state.
    destruct (indexOf "error" (propagatedEvents s)); cbn; split; auto.
    + intros x m I. apply in_app_iff in I. destruct I as [I|[E|[]]].
      * destruct (O x m I) as [[-> J]|J]; [ left; split; auto | now right ].
        apply in_app_iff. now left.
      * injection E as <- <-. left. split; [ reflexivity | ].
        apply in_app_iff. right. now left.
    + intros x m I. destruct (O x m I) as [[-> J]|J]; [ left; split; auto | now right ].
      apply in_app_iff. now left.
  - cbn [handle]. rewrite propagateEventsFrom_state. cbn. split.
    + intros x m I. apply in_app_iff in I. destruct I as [I|I].
      * destruct (O x m I) as [[-> J]|J];
          [ left; now split | right; apply in_app_iff; now left ].
      * apply in_map_iff in I. destruct I as (y & E & _). injection E as <- _.
        right. apply in_app_iff. right. now left.
    + intros x I. apply in_app_iff in I. destruct I as [I|[->|[]]]; auto.
  - cbn [handle]. rewrite source_emit_log. cbn. split; [ exact O | auto ].
Qed.

Lemma run_origin (ins : list input) (s : RSt) :
  wire_origin s ->
  wire_origin (fst (run s ins)) /\
  (forall src, In src (allEventSources (fst (run s ins))) ->
               In src (allEventSources s) \/ In (PropagateEventsFrom src) ins).
Proof.
  revert s. induction ins as [|i ins IH]; intros s O; [ split; auto | ].
  destruct (step_origin i s O) as [O1 A1]. destruct (IH _ O1) as [O2 A2].
  cbn [run fst]. split; [ exact O2 | ].
  intros src I. destruct (A2 src I) as [J|J]; [ | right; now right ].
  destruct (A1 src J) as [K|K]; [ now left | right; left; now symmetry ].
Qed.

(** X10. A source that was registered with [propagateErrorsFrom] only, and
    never with [propagateEventsFrom], forwards nothing but ['error']:
    whatever is attached and in whatever order, the aggregator has no
    forwarding listener on it for any other event. *)
Theorem error_source_forwards_errors_only
    (ins : list input) (src : source) (n : string) :
  ~ In (PropagateEventsFrom src) ins ->
  n <> "error" ->
  subscriptions src n (final_state ins) = 0 /\
  log_of (handle (Raise src n) (final_state ins)) = [].
Proof.
  intros R N.
  assert (Z : subscriptions src n (final_state ins) = 0).
  { destruct (subscriptions src n (final_state ins)) eqn:S; [ reflexivity | ].
    exfalso.
    assert (P : 0 < subscriptions src n (final_state ins)) by lia.
    apply subscriptions_pos in P.
    assert (O0 : wire_origin create) by (intros x m []).
    destruct (run_origin ins create O0) as [O A].
    destruct (O src n P) as [[E _]|I]; [ contradiction | ].
    destruct (A src I) as [[]|J]. contradiction. }
  split; [ exact Z | ]. cbn [handle]. now rewrite source_emit_log, Z.
Qed.

Lemma error_source_forwards_errors_only_witness :
  subscriptions 3 "close"
    (final_state [On "close"; PropagateErrorsFrom 3; On "error"]) = 0.
Proof.
  refine (proj1 (error_source_forwards_errors_only
            [On "close"; PropagateErrorsFrom 3; On "error"] 3 "close" _ _)).
  - intros [E|[E|[E|[]]]]; discriminate E.
  - discriminate.
Defined.

(** *** What is forwarded, and when *)










End AggregatorExtras.

(** ** What [initialize] computes: proofs *)

Module ConnectionProofs.
Import Connection.

(** *** Objects *)

Lemma get_set_eq (k : string) (v : value) (o : obj) : get k (set k v o) = v.
Proof.
  induction o as [|[k0 w] o IH]; cbn.
  - now rewrite String.eqb_refl.
  - destruct (String.eqb k0 k) eqn:E; cbn; now rewrite E.
Qed.

Lemma get_set_ne (k k' : string) (v : value) (o : obj) :
  k <> k' -> get k' (set k v o) = get k' o.
Proof.
  intro N. induction o as [|[k0 w] o IH]; cbn.
  - apply String.eqb_neq in N. now rewrite N.
  - destruct (String.eqb_spec k0 k) as [->|E]; cbn.
    + apply String.eqb_neq in N. now rewrite N.
    + now rewrite IH.
Qed.

Lemma has_set (k k' : string) (v : value) (o : obj) :
  has k' (set k v o) = (String.eqb k k' || has k' o)%bool.
Proof.
  induction o as [|[k0 w] o IH]; cbn.
  - reflexivity.
  - destruct (String.eqb_spec k0 k) as [->|E]; cbn.
    + now destruct (String.eqb k k').
    + rewrite IH. destruct (String.eqb k0 k'), (String.eqb k k'); reflexivity.
Qed.

Lemma has_In (k : string) (o : obj) : has k o = true <-> In k (keys o).
Proof.
  induction o as [|[k0 w] o IH]; cbn; [ split; [ discriminate | contradiction ] | ].
  rewrite orb_true_iff, IH, String.eqb_eq. tauto.
Qed.

Lemma get_absent (k : string) (o : obj) : has k o = false -> get k o = Undefined.
Proof.
  induction o as [|[k0 w] o IH]; cbn; [ reflexivity | ].
  intro H. apply orb_false_elim in H. destruct H as [E H]. rewrite E. auto.
Qed.

Lemma truthy_has (k : string) (o : obj) : truthy (get k o) = true -> has k o = true.
Proof.
  intro T. destruct (has k o) eqn:H; [ reflexivity | ].
  rewrite (get_absent k o H) in T. discriminate T.
Qed.

Lemma keys_set (k : string) (v : value) (o : obj) :
  keys (set k v o) = if has k o then keys o else keys o ++ [k].
Proof.
  unfold keys. induction o as [|[k0 w] o IH]; cbn; [ reflexivity | ].
  destruct (String.eqb_spec k0 k) as [->|E]; cbn; [ reflexivity | ].
  rewrite IH. now destruct (has k o).
Qed.

Lemma NoDup_keys_set (k : string) (v : value) (o : obj) :
  NoDup (keys o) -> NoDup (keys (set k v o)).
Proof.
  intro N. rewrite keys_set. destruct (has k o) eqn:H; [ exact N | ].
  apply NoDup_app; [ exact N | repeat constructor; intros [] | ].
  intros x I [<-|[]]. apply has_In in I. congruence.
Qed.

Lemma pick_step_get (o res : obj) (k0 k : string) :
  get k (if has k0 o then set k0 (get k0 o) res else res) =
  if String.eqb k k0 && has k o then get k o else get k res.
Proof.
  destruct (String.eqb_spec k k0) as [->|N]; cbn [andb].
  - destruct (has k0 o); [ apply get_set_eq | reflexivity ].
  - destruct (has k0 o); [ | reflexivity ]. apply get_set_ne. congruence.
Qed.

Lemma picking_get (o : obj) (ks : list string) (res : obj) (k : string) :
  get k (picking o res ks) =
  if existsb (String.eqb k) ks && has k o then get k o else get k res.
Proof.
  revert res. induction ks as [|k0 ks IH]; intro res; cbn; [ reflexivity | ].
  fold (picking o (if has k0 o then set k0 (get k0 o) res else res) ks).
  rewrite IH, pick_step_get.
  destruct (String.eqb k k0), (existsb (String.eqb k) ks), (has k o);
    reflexivity.
Qed.

Lemma picking_has (o : obj) (ks : list string) (res : obj) (k : string) :
  has k (picking o res ks) =
  ((existsb (String.eqb k) ks && has k o) || has k res)%bool.
Proof.
  revert res. induction ks as [|k0 ks IH]; intro res; cbn; [ reflexivity | ].
  fold (picking o (if has k0 o then set k0 (get k0 o) res else res) ks).
  rewrite IH. destruct (String.eqb_spec k k0) as [->|N]; cbn [orb].
  - destruct (has k0 o) eqn:H; cbn [andb].
    + rewrite has_set, String.eqb_refl. cbn. now rewrite !orb_true_r.
    + now rewrite andb_false_r.
  - destruct (has k0 o); [ | reflexivity ].
    rewrite has_set. apply String.eqb_neq in N. rewrite String.eqb_sym, N.
    reflexivity.
Qed.

Lemma picking_NoDup (o : obj) (ks : list string) (res : obj) :
  NoDup (keys res) -> NoDup (keys (picking o res ks)).
Proof.
  revert res. induction ks as [|k0 ks IH]; intros res N; cbn; [ exact N | ].
  apply IH. destruct (has k0 o); [ now apply NoDup_keys_set | exact N ].
Qed.

Lemma assign_get (target source : obj) (k : string) :
  NoDup (keys source) ->
  get k (assign target source) =
  if has k source then get k source else get k target.
Proof.
  revert target. induction source as [|[k0 v0] source IH]; intros target N;
    [ reflexivity | ].
  cbn in N. inversion N as [|? ? Nk Ns]; subst.
  unfold assign. cbn [fold_left fst snd]. fold (assign (set k0 v0 target) source).
  rewrite (IH _ Ns). cbn [has get].
  destruct (String.eqb_spec k0 k) as [->|E]; cbn [orb].
  - assert (H : has k source = false).
    { destruct (has k source) eqn:H; [ | reflexivity ].
      apply has_In in H. contradiction. }
    rewrite H. apply get_set_eq.
  - destruct (has k source); [ reflexivity | now apply get_set_ne ].
Qed.

Lemma assign_has (target source : obj) (k : string) :
  has k (assign target source) = (has k source || has k target)%bool.
Proof.
  revert target. induction source as [|[k0 v0] source IH]; intro target;
    [ reflexivity | ].
  unfold assign. cbn [fold_left fst snd]. fold (assign (set k0 v0 target) source).
  rewrite IH, has_set. cbn [has].
  destruct (String.eqb k0 k), (has k source), (has k target); reflexivity.
Qed.

(** *** The opening message *)

Lemma openingMessage_get (options : obj) (k : string) :
  get k (openingMessage options) =
  if allowed k && has k options then get k options else get k defaults.
Proof.
  unfold openingMessage.
  rewrite assign_get by (apply (picking_NoDup options _ []); constructor).
  unfold pick. fold (picking options [] OPENING_MESSAGE_PARAMS_ALLOWED).
  rewrite picking_has, picking_get. cbn [has]. rewrite orb_false_r.
  unfold allowed. now destruct (existsb _ _ && has k options).
Qed.

(** X12. The opening message is the protocol defaults overlaid with the
    options on the allowed list and nothing else: a key has the value of the
    option when the key is allowed and the option is there, and the default
    otherwise; a key that is neither allowed nor a default is absent, so no
    other option reaches the service; and [action] is always ['start'],
    whatever the options say. *)
Theorem opening_message_lookup (options : obj) (k : string) :
  get k (openingMessage options) =
    (if allowed k && has k options then get k options else get k defaults) /\
  has k (openingMessage options) =
    ((allowed k && has k options) || has k defaults)%bool /\
  get "action" (openingMessage options) = Str "start".
Proof.
  split; [ apply openingMessage_get | split ].
  - unfold openingMessage. rewrite assign_has. unfold pick.
    fold (picking options [] OPENING_MESSAGE_PARAMS_ALLOWED).
    rewrite picking_has. cbn [has]. now rewrite orb_false_r.
  - rewrite openingMessage_get. reflexivity.
Qed.

Lemma opening_message_lookup_witness :
  get "max_alternatives" (openingMessage sample_options) = Num 1 /\
  get "action" (openingMessage sample_options) = Str "start" /\
  has "model" (openingMessage sample_options) = false.
Proof.
  split; [ | split ].
  - exact (proj1 (opening_message_lookup sample_options "max_alternatives")).
  - exact (proj2 (proj2 (opening_message_lookup sample_options "action"))).
  - exact (proj1 (proj2 (opening_message_lookup sample_options "model"))).
Defined.

(** *** The corrections of the option names *)

Lemma correction_get (old new k : string) (o : obj) :
  get k (correction old new o) =
  if String.eqb new k && truthy (get old o) && negb (truthy (get new o))
  then get old o else get k o.
Proof.
  unfold correction.
  destruct (truthy (get old o) && negb (truthy (get new o))) eqn:C.
  - apply andb_prop in C. destruct C as [-> ->].
    destruct (String.eqb_spec new k) as [->|N]; cbn [andb].
    + apply get_set_eq.
    + now apply get_set_ne.
  - rewrite <- andb_assoc, C. now rewrite andb_false_r.
Qed.

Lemma correction_has (old new k : string) (o : obj) :
  has k o = true -> has k (correction old new o) = true.
Proof.
  intro H. unfold correction.
  destruct (truthy (get old o) && negb (truthy (get new o))); [ | exact H ].
  rewrite has_set, H. apply orb_true_r.
Qed.

Lemma correction_settled (old new : string) (o : obj) :
  truthy (get old o) && negb (truthy (get new o)) = false ->
  correction old new o = o.
Proof. intro C. unfold correction. now rewrite C. Qed.

Lemma corrections_get (options : obj) (k : string) :
  get k (corrections options) =
  if String.eqb "X-Watson-Learning-Opt-Out" k
     && truthy (get "X-WDC-PL-OPT-OUT" options)
     && negb (truthy (get "X-Watson-Learning-Opt-Out" options))
  then get "X-WDC-PL-OPT-OUT" options
  else if String.eqb "content-type" k
          && truthy (get "content_type" options)
          && negb (truthy (get "content-type" options))
  then get "content_type" options
  else if String.eqb "watson-token" k
          && truthy (get "token" options)
          && negb (truthy (get "watson-token" options))
  then get "token" options
  else get k options.
Proof.
  unfold corrections. rewrite !correction_get.
  cbn [String.eqb Ascii.eqb Bool.eqb andb]. reflexivity.
Qed.

(** X13. The corrections let an option under its new name win: the token
    sent is ['watson-token'] when that is set to a truthy value and [token]
    otherwise, and likewise for the content type and the opt-out header;
    every other option is left as it is, and correcting twice is correcting
    once. *)
Theorem corrections_prefer_new_names (options : obj) :
  get "watson-token" (corrections options) =
    (if truthy (get "token" options) && negb (truthy (get "watson-token" options))
     then get "token" options else get "watson-token" options) /\
  get "content-type" (corrections options) =
    (if truthy (get "content_type" options) &&
        negb (truthy (get "content-type" options))
     then get "content_type" options else get "content-type" options) /\
  (forall k,
     k <> "watson-token" -> k <> "content-type" ->
     k <> "X-Watson-Learning-Opt-Out" ->
     get k (corrections options) = get k options) /\
  corrections (corrections options) = corrections options.
Proof.
  pose proof (corrections_get options) as G.
  split; [ | split; [ | split ] ].
  - rewrite G. cbn. reflexivity.
  - rewrite G. cbn. reflexivity.
  - intros k N1 N2 N3. rewrite G.
    apply not_eq_sym in N1, N2, N3. apply String.eqb_neq in N1, N2, N3.
    now rewrite N1, N2, N3.
  - set (o' := corrections options). unfold corrections at 1.
    assert (C1 : correction "token" "watson-token" o' = o').
    { apply correction_settled. unfold o'. rewrite !G. cbn.
      destruct (truthy (get "token" options)) eqn:T; [ | reflexivity ].
      destruct (truthy (get "watson-token" options)) eqn:W; cbn; now rewrite ?T, ?W. }
    rewrite C1.
    assert (C2 : correction "content_type" "content-type" o' = o').
    { apply correction_settled. unfold o'. rewrite !G. cbn.
      destruct (truthy (get "content_type" options)) eqn:T; [ | reflexivity ].
      destruct (truthy (get "content-type" options)) eqn:W; cbn; now rewrite ?T, ?W. }
    rewrite C2.
    apply correction_settled. unfold o'. rewrite !G. cbn.
    destruct (truthy (get "X-WDC-PL-OPT-OUT" options)) eqn:T; [ | reflexivity ].
    destruct (truthy (get "X-Watson-Learning-Opt-Out" options)) eqn:W; cbn;
      now rewrite ?T, ?W.
Qed.

Lemma corrections_prefer_new_names_witness :
  get "watson-token" (corrections sample_options) = Str "a%2Fb" /\
  get "url" (corrections sample_options) = Str "https://example.org/api".
Proof.
  destruct (corrections_prefer_new_names sample_options) as (A & _ & C & _).
  split; [ exact A | ]. apply C; discriminate.
Defined.

(** X14. On the first write the content type of the opening message is the
    configured ['content-type'] if that is truthy; otherwise what was found
    in the chunk if that is truthy; otherwise the option under its old name
    [content_type] if that is truthy; otherwise what was found, truthy or
    not.  So an option given as [content_type] is used only when nothing is
    found in the chunk, and the default ['audio/wav'] is never used. *)
Theorem first_write_content_type (found : value) (options : obj) :
  get "content-type"
      (openingMessage (corrections (inferred_options found options))) =
  if truthy (get "content-type" options) then get "content-type" options
  else if truthy found then found
  else if truthy (get "content_type" options) then get "content_type" options
  else found.
Proof.
  rewrite openingMessage_get.
  pose proof (corrections_get (inferred_options found options) "content-type") as C.
  cbn [String.eqb Ascii.eqb Bool.eqb andb] in C.
  assert (H : has "content-type" (corrections (inferred_options found options)) = true).
  { unfold corrections. do 3 apply correction_has. unfold inferred_options.
    destruct (truthy (get "content-type" options)) eqn:T; cbn [negb].
    - now apply truthy_has.
    - rewrite has_set, String.eqb_refl. reflexivity. }
  rewrite H. cbn [allowed existsb andb OPENING_MESSAGE_PARAMS_ALLOWED].
  change (allowed "content-type") with true. cbn [andb].
  rewrite C. unfold inferred_options.
  destruct (truthy (get "content-type" options)) eqn:T; cbn [negb].
  - rewrite T. cbn. now rewrite andb_false_r.
  - rewrite get_set_eq, (get_set_ne "content-type" "content_type") by discriminate.
    destruct (truthy found); cbn; [ now rewrite andb_false_r | ].
    now rewrite andb_true_r.
Qed.

Section Builtins.
Variable encodeURIComponent : string -> string.
Variable number_to_string : nat -> string.

Local Abbreviation to_string := (to_string number_to_string).
Local Abbreviation queryString := (queryString encodeURIComponent number_to_string).
Local Abbreviation url := (url encodeURIComponent number_to_string).

(** *** The query string and the URL *)

(** X15. The query string has the model first, the configured one or the
    default, encoded; then the ['watson-token'] if the options have one, as
    it is, not encoded; and no other option. *)
Theorem query_string_shape (options : obj) :
  queryString options =
  ("model=" ++
   encodeURIComponent
     (to_string (if has "model" options then get "model" options
                 else Str "en-US_BroadbandModel")) ++
   (if has "watson-token" options
    then "&watson-token=" ++ to_string (get "watson-token" options)
    else ""))%string.
Proof.
  unfold Connection.queryString, queryParams, pick, QUERY_PARAMS_ALLOWED.
  cbn [fold_left].
  assert (E : forall s : string, (s ++ "")%string = s)
    by (intro s; induction s as [|a s IH]; cbn; [ reflexivity | now rewrite IH ]).
  destruct (has "model" options), (has "watson-token" options);
    cbn; rewrite ?E; reflexivity.
Qed.

Lemma substring_all (s : string) : String.substring 0 (String.length s) s = s.
Proof. induction s as [|a s IH]; cbn; [ reflexivity | now rewrite IH ]. Qed.

(** X16. The scheme of the base URL is turned from http to ws, so https
    becomes wss; a base URL that does not begin with http is taken as it is;
    what is given to the socket never begins with http.  Without a [url]
    option the default endpoint is used; a truthy [url] that is not a string
    makes [initialize] throw.  The path and the query string follow the
    base. *)
Theorem url_scheme (options : obj) :
  (forall rest, replace_http ("http" ++ rest) = ("ws" ++ rest)%string) /\
  (forall base, String.prefix "http" (replace_http base) = false) /\
  (forall base,
     get "url" options = Str base -> base <> EmptyString ->
     url options =
     Returned (replace_http base ++ "/v1/recognize?" ++ queryString options)%string) /\
  (truthy (get "url" options) = false ->
   url options =
   Returned ("wss://stream.watsonplatform.net/speech-to-text/api/v1/recognize?" ++
             queryString options)%string) /\
  (truthy (get "url" options) = true ->
   (forall base, get "url" options <> Str base) ->
   url options = Thrown (TypeError "replace is not a function")).
Proof.
  split; [ | split; [ | split; [ | split ] ] ].
  - intro rest. unfold replace_http. cbn.
    replace (String.prefix "" rest) with true by (now destruct rest).
    now rewrite Nat.sub_0_r, substring_all.
  - intro base. unfold replace_http.
    destruct (String.prefix "http" base) eqn:P; [ reflexivity | exact P ].
  - intros base E N. unfold Connection.url. rewrite E. cbn [truthy].
    apply String.eqb_neq in N. now rewrite N.
  - intros F. unfold Connection.url. rewrite F. reflexivity.
  - intros T N. unfold Connection.url. rewrite T.
    destruct (get "url" options) as [|b|n|base|t text]; try reflexivity.
    now destruct (N base).
Qed.

End Builtins.

Lemma first_write_content_type_witness :
  get "content-type"
      (openingMessage
         (corrections (inferred_options (Str "audio/flac")
                         [("content_type", Str "audio/l16")]))) =
  Str "audio/flac".
Proof.
  exact (first_write_content_type (Str "audio/flac")
           [("content_type", Str "audio/l16")]).
Defined.

Lemma url_scheme_witness :
  url sample_encode sample_number sample_options =
  Returned "wss://example.org/api/v1/recognize?model=en-US_NarrowbandModel".
Proof.
  refine (proj1 (proj2 (proj2 (url_scheme sample_encode sample_number
                                 sample_options)))
            "https://example.org/api" eq_refl _).
  discriminate.
Defined.

End ConnectionProofs.

(** ** Flow control: proofs *)

Module FlowControlProofs.
Import FlowControl.

(** X17. [afterSend] calls [next] at the first poll at which the buffered
    amount of the transport is at most the high-water mark, 10 ms after the
    call for each poll before it, and at no poll at which the buffer is
    above the mark; as long as the buffer stays above it, [next] is not
    called. *)
Theorem afterSend_first_drained (highWaterMark : nat) (bufferedAmount : list nat) :
  (forall t,
     afterSend highWaterMark bufferedAmount = Some t <->
     exists before b later,
       bufferedAmount = before ++ b :: later /\
       Forall (fun x => highWaterMark < x) before /\
       b <= highWaterMark /\
       t = 10 * List.length before) /\
  (afterSend highWaterMark bufferedAmount = None <->
   Forall (fun x => highWaterMark < x) bufferedAmount).
Proof.
  induction bufferedAmount as [|b l [IHs IHn]]; cbn [afterSend].
  - split.
    + intro t. split; [ discriminate | ].
      intros (before & b & later & E & _). now destruct before.
    + split; [ constructor | reflexivity ].
  - destruct (Nat.leb_spec b highWaterMark) as [L|G].
    + split.
      * intro t. split.
        -- intro E. injection E as <-. exists [], b, l. repeat split; auto.
        -- intros (before & b' & later & E & F & _ & ->).
           destruct before as [|x before]; [ reflexivity | ].
           injection E as <- _. inversion F; subst. lia.
      * split; [ discriminate | ]. intro F. inversion F; subst. lia.
    + split.
      * intro t. destruct (afterSend highWaterMark l) as [t'|] eqn:A.
        -- split.
           ++ intro E. injection E as <-.
              destruct (proj1 (IHs t') eq_refl) as (before & b' & later & -> & F & Lb & ->).
              exists (b :: before), b', later. repeat split; auto.
              cbn [List.length]. lia.
           ++ intros (before & b' & later & E & F & Lb & ->).
              destruct before as [|x before]; [ injection E as -> _; lia | ].
              injection E as <- E. inversion F; subst.
              assert (S : Some t' = Some (10 * List.length before)).
              { apply IHs. exists before, b', later. repeat split; auto. }
              injection S as ->. f_equal. cbn [List.length]. lia.
        -- split; [ discriminate | ].
           intros (before & b' & later & E & F & Lb & ->).
           destruct before as [|x before]; [ injection E as -> _; lia | ].
           injection E as <- E. inversion F; subst.
           assert (S : None = Some (10 * List.length before)).
           { apply IHs. exists before, b', later. repeat split; auto. }
           discriminate S.
      * destruct (afterSend highWaterMark l) as [t'|] eqn:A.
        -- split; [ discriminate | ]. intro F. inversion F; subst.
           apply IHn in H2. discriminate H2.
        -- split; [ | reflexivity ]. intros _. constructor; [ exact G | ].
           now apply IHn.
Qed.

Lemma afterSend_first_drained_witness :
  afterSend 16 [70; 20; 16; 0] = Some 20.
Proof.
  apply (proj1 (afterSend_first_drained 16 [70; 20; 16; 0])).
  exists [70; 20], 16, [0].
  repeat split; [ repeat constructor; lia | lia ].
Defined.

End FlowControlProofs.

(** ** Collapsing a stream into a promise: proofs *)

Module CollapseProofs.
Import Collapse.

Section Decoding.
Variable toString : list byte -> string.

Local Abbreviation deliver := (deliver toString).
Local Abbreviation listen := (listen toString).
Local Abbreviation promise := (promise toString).

Lemma listen_app (p : promise_state) (e1 e2 : list stream_event) :
  listen p (e1 ++ e2) = listen (listen p e1) e2.
Proof. apply fold_left_app. Qed.

Lemma listen_cons (p : promise_state) (ev : stream_event) (evs : list stream_event) :
  listen p (ev :: evs) = listen (deliver ev p) evs.
Proof. reflexivity. Qed.

Lemma listen_data (p : promise_state) (cs : list chunk) :
  listen p (map Data cs) =
  {| results := results p ++ cs; settled := settled p |}.
Proof.
  revert p. induction cs as [|c cs IH]; intro p; cbn [map].
  - destruct p; cbn. now rewrite app_nil_r.
  - rewrite listen_cons, IH. cbn. now rewrite <- app_assoc.
Qed.

Lemma settle_settled (y x : settlement) (p : promise_state) :
  settled p = Some x -> settle y p = p.
Proof. intro S. unfold settle. now rewrite S. Qed.

Lemma deliver_settled (ev : stream_event) (p : promise_state) (x : settlement) :
  settled p = Some x -> settled (deliver ev p) = Some x.
Proof.
  intro S. destruct ev as [c| |e]; cbn.
  - exact S.
  - destruct (results p) as [|[b|v] l].
    + now rewrite (settle_settled _ x p S).
    + destruct (Buffer_concat (Buf b :: l)); [ | exact S ].
      now rewrite (settle_settled _ x p S).
    + now rewrite (settle_settled _ x p S).
  - now rewrite (settle_settled _ x p S).
Qed.

Lemma listen_settled (events : list stream_event) (p : promise_state) (x : settlement) :
  settled p = Some x -> settled (listen p events) = Some x.
Proof.
  revert p. induction events as [|ev events IH]; intros p S; [ exact S | ].
  rewrite listen_cons. apply IH. now apply deliver_settled.
Qed.

Lemma deliver_results (ev : stream_event) (p : promise_state) :
  results (deliver ev p) = results p ++ data_of [ev].
Proof.
  destruct ev as [c| |e]; cbn; rewrite ?app_nil_r; try reflexivity.
  - unfold settle. destruct (results p) as [|[b|v] l] eqn:R.
    + destruct (settled p); cbn; now rewrite ?R.
    + destruct (Buffer_concat (Buf b :: l)); [ | now rewrite R ].
      destruct (settled p); cbn; now rewrite ?R.
    + destruct (settled p); cbn; now rewrite ?R.
  - unfold settle. destruct (settled p); reflexivity.
Qed.

Lemma listen_results (events : list stream_event) (p : promise_state) :
  results (listen p events) = results p ++ data_of events.
Proof.
  revert p. induction events as [|ev events IH]; intro p.
  - cbn. now rewrite app_nil_r.
  - rewrite listen_cons, IH, deliver_results, <- app_assoc. f_equal.
    unfold data_of. cbn [flat_map]. now rewrite app_nil_r.
Qed.

Lemma Buffer_concat_buffers (cs : list chunk) :
  forallb isBuffer cs = true -> Buffer_concat cs = Returned (bytes_of cs).
Proof.
  induction cs as [|[b|v] cs IH]; cbn; try discriminate; [ reflexivity | ].
  intro F. now rewrite (IH F).
Qed.

(** X18. The promise of a stream that emits the chunks [cs] and then ends is
    resolved, whatever comes after the end: with the text of all the bytes,
    in order, when the chunks are buffers and there is at least one; with
    the array of the chunks when the first chunk is not a buffer; and with
    the empty array, not the empty text, when the stream ends without a
    chunk.  The array is [results] itself, to which chunks emitted after the
    end are still added. *)
Theorem promise_resolves_at_end (cs : list chunk) (after : list stream_event) :
  (cs <> [] -> forallb isBuffer cs = true ->
   settled (promise (map Data cs ++ End :: after)) =
   Some (ResolvedText (toString (bytes_of cs)))) /\
  (match cs with Buf _ :: _ => False | _ => True end ->
   settled (promise (map Data cs ++ End :: after)) = Some ResolvedResults /\
   results (promise (map Data cs ++ End :: after)) = cs ++ data_of after).
Proof.
  unfold Collapse.promise.
  assert (E : listen pending (map Data cs ++ End :: after) =
              listen (deliver End {| results := cs; settled := None |}) after).
  { rewrite listen_app, listen_data. reflexivity. }
  split.
  - intros N F. rewrite E. apply listen_settled. cbn.
    destruct cs as [|[b|v] cs]; [ contradiction | | discriminate F ].
    now rewrite (Buffer_concat_buffers _ F).
  - intro V. rewrite E. split.
    + apply listen_settled. destruct cs as [|[b|v] cs]; try contradiction;
        reflexivity.
    + rewrite listen_results. destruct cs as [|[b|v] cs]; try contradiction;
        reflexivity.
Qed.

(** X19. The promise of a stream that raises an error before it ends is
    rejected with that error, whatever chunks came before and whatever
    comes after; and once the promise is settled, no later event of the
    stream settles it otherwise. *)
Theorem promise_rejects_on_error
    (cs : list chunk) (e : string) (after : list stream_event) :
  settled (promise (map Data cs ++ Error e :: after)) = Some (Rejected e) /\
  (forall events x more,
     settled (promise events) = Some x ->
     settled (promise (events ++ more)) = Some x).
Proof.
  unfold Collapse.promise. split.
  - rewrite listen_app, listen_data. cbn [fold_left Collapse.listen].
    apply (listen_settled after). reflexivity.
  - intros events x more S. rewrite listen_app. now apply listen_settled.
Qed.

End Decoding.

Lemma promise_resolves_at_end_witness :
  settled (promise string_of_list_byte [Data (Buf [x68; x69]); Data (Buf [x21]); End]) =
  Some (ResolvedText "hi!") /\
  settled (promise string_of_list_byte [End]) = Some ResolvedResults.
Proof.
  split.
  - refine (proj1 (promise_resolves_at_end string_of_list_byte
                     [Buf [x68; x69]; Buf [x21]] []) _ _).
    + discriminate.
    + reflexivity.
  - exact (proj1 (proj2 (promise_resolves_at_end string_of_list_byte [] []) I)).
Defined.

Lemma promise_rejects_on_error_witness :
  settled (promise string_of_list_byte [Error "boom"; End]) = Some (Rejected "boom").
Proof.
  refine (proj2 (promise_rejects_on_error string_of_list_byte [] "x" [])
            [Error "boom"] (Rejected "boom") [End] _).
  reflexivity.
Defined.

End CollapseProofs.
